(** * class_scraper: the course-catalog scraper, its header parser and its
      pipeline, embedded from [src/misc/class_scraper.py].

    Python strings are sequences of Unicode code points: a character is a
    code point in [N], a [str] is a list of them.  The script's regular
    expressions are kept as syntax trees and run by a backtracking matcher
    with the priorities of Python's [re] (greedy and lazy repeats, named
    groups, [^] and [$]).  Two tables of the Unicode database that the
    script reaches through its libraries are parameters of the development:
    the compatibility normal form NFKC ([unicodedata.normalize]) and the
    decimal-digit property behind [\d]. *)

From Stdlib Require Import NArith Lia Ascii String DecimalString.
From stdpp Require Import base option list strings gmap.


(** ** Characters and strings *)

Abbreviation char := N (only parsing).
Abbreviation str := (list N) (only parsing).

(** A literal of the script whose characters are all ASCII. *)
Definition lit (s : string) : str :=
  Ascii.N_of_ascii <$> list_ascii_of_string s.

Definition ch_tab : char := 9%N.
Definition ch_newline : char := 10%N.
Definition ch_space : char := 32%N.
Definition ch_lparen : char := 40%N.
Definition ch_rparen : char := 41%N.
Definition ch_slash : char := 47%N.
Definition ch_A : char := 65%N.
Definition ch_Z : char := 90%N.
Definition ch_nbsp : char := 160%N.          (* '\xa0' *)

(** [str.isspace] on one character, which is also the class [\s] of a
    [str] pattern: the code points CPython lists as white space. *)
Definition is_space (c : char) : bool :=
  ((9 <=? c) && (c <=? 13) || (28 <=? c) && (c <=? 32) || (c =? 133)
   || (c =? 160) || (c =? 5760) || (8192 <=? c) && (c <=? 8202)
   || (c =? 8232) || (c =? 8233) || (c =? 8239) || (c =? 8287)
   || (c =? 12288))%N.

Definition is_upper_AZ (c : char) : bool := ((ch_A <=? c) && (c <=? ch_Z))%N.

(** [s.strip()] *)
Fixpoint lstrip (s : str) : str :=
  match s with
  | c :: t => if is_space c then lstrip t else s
  | [] => []
  end.

Definition rstrip (s : str) : str := reverse (lstrip (reverse s)).

Definition strip (s : str) : str := rstrip (lstrip s).

(** [s.replace(old, new)] for a one-character [old]. *)
Definition replace1 (old : char) (new : str) (s : str) : str :=
  c ← s; if decide (c = old) then new else [c].

(** [needle in s] *)
Fixpoint is_prefix (p s : str) : bool :=
  match p, s with
  | [], _ => true
  | a :: p', b :: s' => (a =? b)%N && is_prefix p' s'
  | _ :: _, [] => false
  end.

Fixpoint contains (needle s : str) : bool :=
  is_prefix needle s ||
  match s with
  | [] => false
  | _ :: t => contains needle t
  end.

(** [s.endswith(suffix)] *)
Definition endswith (s suffix : str) : bool :=
  is_prefix (reverse suffix) (reverse s).

(** [s.split('\n')] *)
Fixpoint split_lines (s : str) : list str :=
  match s with
  | [] => [[]]
  | c :: t =>
      if (c =? ch_newline)%N then [] :: split_lines t
      else match split_lines t with
           | l :: ls => (c :: l) :: ls
           | [] => [[c]]
           end
  end.

(** ** Regular expressions *)

(** One-character classes of the script's patterns. *)
Inductive cls :=
| CRange (lo hi : char)     (* [A-Z] *)
| CSpace                    (* \s *)
| CDigit                    (* \d *)
| CDot                      (* .  (no DOTALL flag) *)
| CLit (c : char)           (* \( and \) *)
| CNotLit (c : char).       (* [^)] *)

Inductive regex :=
| Bol                                         (* ^ *)
| Eol                                         (* $ *)
| One (c : cls)
| Cat (a b : regex)
| Rep (lo : nat) (greedy : bool) (a : regex)  (* a*  a+  a*?  a+? *)
| Opt (greedy : bool) (a : regex)             (* a?  a?? *)
| Group (name : string) (a : regex).          (* (?P<name>a) *)

Declare Scope regex_scope.
Delimit Scope regex_scope with re.
Bind Scope regex_scope with regex.
Infix "▹" := Cat (at level 60, right associativity) : regex_scope.

(** The matcher's state: the pointer into the subject (its index and the
    text from it on) and the groups closed so far. *)
Record mstate := MState {
  pos : nat;
  rest : str;
  groups : gmap string str
}.

Definition advance1 (st : mstate) (t : str) : mstate :=
  MState (S (pos st)) t (groups st).

(** Closing group [name], opened at [st0], at [st1]: the group holds the
    subject between the two pointers. *)
Definition close_group (name : string) (st0 st1 : mstate) : mstate :=
  MState (pos st1) (rest st1)
         (<[name := take (pos st1 - pos st0) (rest st0)]> (groups st1)).

Definition advanced (st0 st1 : mstate) : bool :=
  negb (pos st1 =? pos st0)%nat.

Definition or_else {R} (x y : option R) : option R :=
  match x with
  | Some v => Some v
  | None => y
  end.

Section Matcher.
(** [Py_UNICODE_ISDECIMAL]: general category Nd of the interpreter's
    Unicode database. *)
Variable uni_decimal : char → bool.

Definition in_cls (c : cls) (x : char) : bool :=
  match c with
  | CRange lo hi => ((lo <=? x) && (x <=? hi))%N
  | CSpace => is_space x
  | CDigit => uni_decimal x
  | CDot => negb (x =? ch_newline)%N
  | CLit y => (x =? y)%N
  | CNotLit y => negb (x =? y)%N
  end.

Section Run.
Context {R : Type}.

(** The repeat loop.  [need] counts the iterations still owed to the
    lower bound.  Past it a greedy loop tries one more item before the
    tail and a lazy loop the tail before one more item; an item that
    did not move the pointer is not followed by another (the engine's
    zero-width protection). *)
Fixpoint rep_loop (body : mstate → (mstate → option R) → option R)
    (greedy : bool) (k : mstate → option R)
    (fuel need : nat) (st : mstate) {struct fuel} : option R :=
  match fuel with
  | 0 => None
  | S fuel' =>
      match need with
      | S need' => body st (λ st', rep_loop body greedy k fuel' need' st')
      | 0 =>
          let again :=
            body st (λ st', if advanced st st'
                            then rep_loop body greedy k fuel' 0 st'
                            else k st') in
          if greedy then or_else again (k st) else or_else (k st) again
      end
  end.

(** The backtracking matcher, in continuation-passing style: [k] is
    the rest of the pattern, and the first success in priority order
    is the result. *)
Fixpoint run (r : regex) (st : mstate) (k : mstate → option R)
    {struct r} : option R :=
  match r with
  | Bol => if decide (pos st = 0) then k st else None
  | Eol =>
      match rest st with
      | [] => k st
      | [c] => if (c =? ch_newline)%N then k st else None
      | _ => None
      end
  | One c =>
      match rest st with
      | x :: t => if in_cls c x then k (advance1 st t) else None
      | [] => None
      end
  | Cat a b => run a st (λ st', run b st' k)
  | Rep lo greedy a =>
      rep_loop (run a) greedy k (lo + length (rest st) + 1) lo st
  | Opt greedy a =>
      if greedy then or_else (run a st k) (k st)
      else or_else (k st) (run a st k)
  | Group name a => run a st (λ st', k (close_group name st st'))
  end.
End Run.

(** [pattern.match(s)]: the match object (the final state) or [None]. *)
Definition re_match (r : regex) (s : str) : option mstate :=
  run r (MState 0 s ∅) Some.

(** [m.group(name)] *)
Definition group (m : mstate) (name : string) : option str :=
  groups m !! name.
End Matcher.

Arguments re_match uni_decimal r s : simpl never.

(** [re.sub(pattern, repl, s)] for a pattern without anchors that matches
    no empty string: scanning from the left, each match is replaced by
    [repl] and the scan resumes behind it; a character where no match
    starts is copied. *)
Fixpoint sub_loop (uni_decimal : char → bool) (r : regex) (repl : str)
    (fuel : nat) (s : str) {struct fuel} : str :=
  match fuel, s with
  | 0, _ => s
  | _, [] => []
  | S fuel', c :: t =>
      match run uni_decimal r (MState 0 s ∅) Some with
      | Some m =>
          if advanced (MState 0 s ∅) m
          then repl ++ sub_loop uni_decimal r repl fuel' (rest m)
          else c :: sub_loop uni_decimal r repl fuel' t
      | None => c :: sub_loop uni_decimal r repl fuel' t
      end
  end.

Definition re_sub (uni_decimal : char → bool) (r : regex) (repl s : str) : str :=
  sub_loop uni_decimal r repl (length s) s.

(** ** The script *)

(** Python outcomes: a value, or a raised exception.  [LibraryError]
    stands for the exception classes of the libraries the script calls
    ([requests], [supabase]), by class name and message. *)
Inductive exn :=
| ValueError (msg : str)
| AttributeError
| LibraryError (class msg : str).

Inductive outcome (A : Type) :=
| Ok (a : A)
| Raise (e : exn).
Arguments Ok {A} a.
Arguments Raise {A} e.

(** A [course_data] dict.  [title] and [credits] hold what [match.group]
    returned, which is [None] for a group that took no part in the match. *)
Record course := Course {
  code : str;
  title : option str;
  credits : option str
}.

Definition upper : regex := One (CRange ch_A ch_Z).
Definition space : regex := One CSpace.
Definition digit : regex := One CDigit.
Definition plus (a : regex) : regex := Rep 1 true a.
Definition star (a : regex) : regex := Rep 0 true a.

(** Lines 45-47.  The pattern, laid out as under re.VERBOSE:

      ^ (?P<code> [A-Z]+ (?:\s+[A-Z]+)* \s+ \d+ [A-Z]? )
      \s+ (?P<title> .+? )
      \s* \( (?P<credits> [^)]* ) \) \s* (?P<tags> .* )? $

    in three parts: the body of the code group, the part behind the
    title, and the whole. *)
Definition code_pattern : regex :=
  (plus upper ▹ star (plus space ▹ plus upper) ▹ plus space ▹ plus digit
   ▹ Opt true upper)%re.

Definition tail_pattern : regex :=
  (star space ▹ One (CLit ch_lparen)
   ▹ Group "credits" (star (One (CNotLit ch_rparen)))
   ▹ One (CLit ch_rparen) ▹ star space
   ▹ Opt true (Group "tags" (star (One CDot))) ▹ Eol)%re.

Definition header_pattern : regex :=
  (Bol ▹ Group "code" code_pattern ▹ plus space
   ▹ Group "title" (Rep 1 false (One CDot)) ▹ tail_pattern)%re.

(** What [BeautifulSoup] reports of a [<p>] element: whether [p.find('b')]
    found a tag, and [p.get_text()]. *)
Record para := Para {
  has_b : bool;
  text : str
}.

Section Scraper.
Variable uni_decimal : char → bool.
(** [unicodedata.normalize('NFKC', _)] *)
Variable nfkc : str → str.

(** Lines 68-69: the header as it is matched. *)
Definition header_norm (header : str) : str :=
  let header_norm := replace1 ch_nbsp [ch_space] (nfkc header) in
  strip (re_sub uni_decimal (plus space) [ch_space] header_norm).

(** Lines 72-78: the dict built from a match object. *)
Definition course_data (m : mstate) : outcome course :=
  match group m "code" with
  | None => Raise AttributeError        (* None has no .replace *)
  | Some c =>
      let code_clean := replace1 ch_space [] c in
      Ok {| code := code_clean;
            title := group m "title";
            credits := group m "credits" |}
  end.

(** Lines 66-79 for one header: the list [courses] afterwards. *)
Definition scan_header (courses : list course) (header : str)
    : outcome (list course) :=
  match re_match uni_decimal header_pattern (header_norm header) with
  | Some m =>
      match course_data m with
      | Ok d => Ok (courses ++ [d])
      | Raise e => Raise e
      end
  | None => Ok courses
  end.

(** The spec's [parse]: the record a header yields, if any. *)
Definition parse (header : str) : outcome (option course) :=
  match re_match uni_decimal header_pattern (header_norm header) with
  | Some m =>
      match course_data m with
      | Ok d => Ok (Some d)
      | Raise e => Raise e
      end
  | None => Ok None
  end.

(** Lines 60-79: one [<p>] element. *)
Definition scan_para (courses : list course) (p : para)
    : outcome (list course) :=
  if has_b p then
    let full_text := strip (text p) in
    let lines :=
      strip <$> filter (λ line, strip line ≠ []) (split_lines full_text) in
    match lines with
    | [] => Ok courses                    (* continue *)
    | header :: _ => scan_header courses header
    end
  else Ok courses.

(** Lines 57-79: the courses of one department page. *)
Fixpoint scan_paras (courses : list course) (ps : list para)
    : outcome (list course) :=
  match ps with
  | [] => Ok courses
  | p :: ps' =>
      match scan_para courses p with
      | Ok courses' => scan_paras courses' ps'
      | Raise e => Raise e
      end
  end.
End Scraper.

(** ** A declarative reading of the patterns *)

Section Reading.
Variable uni_decimal : char → bool.

Local Abbreviation in_cls := (in_cls uni_decimal).

(** [matches r s1 s2]: the pattern [r] can take the matcher from [s1] to
    [s2].  Priorities play no part here; the repeat follows the loop,
    whose items past the lower bound move the pointer, but for a last
    one. *)
Inductive matches : regex → mstate → mstate → Prop :=
| m_bol st : pos st = 0 → matches Bol st st
| m_eol st : rest st = [] ∨ rest st = [ch_newline] → matches Eol st st
| m_one c st x t :
    rest st = x :: t → in_cls c x = true →
    matches (One c) st (advance1 st t)
| m_cat a b s1 s2 s3 :
    matches a s1 s2 → matches b s2 s3 → matches (Cat a b) s1 s3
| m_rep_need lo g a s1 s2 s3 :
    matches a s1 s2 → matches (Rep lo g a) s2 s3 →
    matches (Rep (S lo) g a) s1 s3
| m_rep_done g a st : matches (Rep 0 g a) st st
| m_rep_more g a s1 s2 s3 :
    matches a s1 s2 → advanced s1 s2 = true →
    matches (Rep 0 g a) s2 s3 → matches (Rep 0 g a) s1 s3
| m_rep_last g a s1 s2 :
    matches a s1 s2 → advanced s1 s2 = false →
    matches (Rep 0 g a) s1 s2
| m_opt_some g a s1 s2 : matches a s1 s2 → matches (Opt g a) s1 s2
| m_opt_none g a st : matches (Opt g a) st st
| m_group name a s1 s2 :
    matches a s1 s2 → matches (Group name a) s1 (close_group name s1 s2).

Definition leq_k {R} (k1 k2 : mstate → option R) : Prop :=
  ∀ st, is_Some (k1 st) → is_Some (k2 st).

(** The state [j] characters further on, with the groups unchanged. *)
Definition skip (j : nat) (st : mstate) : mstate :=
  MState (pos st + j) (drop j (rest st)) (groups st).

Fixpoint group_free (r : regex) : bool :=
  match r with
  | Bol | Eol | One _ => true
  | Cat a b => group_free a && group_free b
  | Rep _ _ a | Opt _ a => group_free a
  | Group _ _ => false
  end.

(** A pattern every match of which moves the pointer. *)
Fixpoint consuming (r : regex) : bool :=
  match r with
  | Bol | Eol | Opt _ _ => false
  | One _ => true
  | Cat a b => consuming a || consuming b
  | Rep lo _ a => (0 <? lo) && consuming a
  | Group _ a => consuming a
  end.

(** A pattern without groups and anchors whose repeated items all move
    the pointer. *)
Fixpoint plain (r : regex) : bool :=
  match r with
  | Bol | Eol | Group _ _ => false
  | One _ => true
  | Cat a b => plain a && plain b
  | Rep _ _ a => plain a && consuming a
  | Opt _ a => plain a
  end.

Definition all_in (c : cls) (w : str) : Prop :=
  Forall (λ x, in_cls c x = true) w.

(** The length of the longest run of the class at the head of [s]. *)
Fixpoint run_length (c : cls) (s : str) : nat :=
  match s with
  | x :: t => if in_cls c x then S (run_length c t) else 0
  | [] => 0
  end.

(** The texts a pattern can consume. *)
Fixpoint lang (r : regex) (w : str) : Prop :=
  match r with
  | Bol | Eol => w = []
  | One c => ∃ x, w = [x] ∧ in_cls c x = true
  | Cat a b => ∃ w1 w2, w = w1 ++ w2 ∧ lang a w1 ∧ lang b w2
  | Rep lo _ a => ∃ ws, w = concat ws ∧ Forall (lang a) ws ∧ lo ≤ length ws
  | Opt _ a => w = [] ∨ lang a w
  | Group _ a => lang a w
  end.
End Reading.

(** ** Normal form of a header *)

(** A left-to-right scan that keeps one space for each run of white
    space; [in_run] tells that the previous character was white space. *)
Fixpoint squeeze (in_run : bool) (s : str) : str :=
  match s with
  | [] => []
  | c :: t =>
      if is_space c
      then (if in_run then squeeze true t else ch_space :: squeeze true t)
      else c :: squeeze false t
  end.

(** [tidy prev s]: every white-space character of [s] is U+0020 and no two
    are adjacent, [prev] telling whether white space precedes [s]. *)
Fixpoint tidy (prev : bool) (s : str) : Prop :=
  match s with
  | [] => True
  | c :: t => (is_space c = true → c = ch_space ∧ prev = false) ∧ tidy (is_space c) t
  end.

(** ** Vocabulary of the properties *)

(** [sep.join(words)] *)
Fixpoint join (sep : str) (words : list str) : str :=
  match words with
  | [] => []
  | w :: ws =>
      match ws with
      | [] => w
      | _ :: _ => w ++ sep ++ join sep ws
      end
  end.

(** A parenthesis group: a ['('] with a [')'] somewhere behind it. *)
Fixpoint has_paren_group (s : str) : bool :=
  match s with
  | [] => false
  | c :: t =>
      (c =? ch_lparen)%N && existsb (λ x, (x =? ch_rparen)%N) t
      || has_paren_group t
  end.

(** An upper-case word of a subject code. *)
Definition word_ok (w : str) : Prop :=
  w ≠ [] ∧ Forall (λ c, is_upper_AZ c = true) w.

(** The parts of a code text: the words of the subject, the digits of
    the number and its optional letter. *)
Definition code_text (uni_decimal : char → bool)
    (words : list str) (digits suffix : str) : Prop :=
  words ≠ [] ∧ Forall word_ok words ∧
  digits ≠ [] ∧ Forall (λ c, uni_decimal c = true) digits ∧
  Forall (λ c, is_upper_AZ c = true) suffix ∧ length suffix ≤ 1.

(** A title as the pattern delivers it: not empty, no white space at
    either end, and no ['('] behind its first character. *)
Definition title_ok (ttl : str) : Prop :=
  ttl ≠ [] ∧
  (∀ x, head ttl = Some x → is_space x = false) ∧
  (∀ x, last ttl = Some x → is_space x = false) ∧
  ch_lparen ∉ tail ttl.

(** ** The pipeline *)

(** [str(n)] for a length. *)
Definition str_of_nat (n : nat) : str :=
  lit (NilZero.string_of_uint (Nat.to_uint n)).

(** What [BeautifulSoup] reports of an [<a>] element: [a.get('href')],
    which is [None] without the attribute, and [a.text]. *)
Record anchor := Anchor {
  href : option str;
  atext : str
}.

(** A fetched and parsed page: [soup.find_all('a')] and
    [soup.find_all('p')]. *)
Record html := Html {
  anchors : list anchor;
  paras : list para
}.

(** A Python value as the script looks at it: its truth value and its
    [str()]. *)
Record pyval := PyVal {
  truth : bool;
  shown : str
}.

(** The result of [execute()]; [error] is [None] when the response has no
    such attribute. *)
Record response := Response {
  error : option pyval
}.

(** What the script does to the outside, in order: a line printed, a
    GET request made, an insert asked of the store, a pause.  A request
    is logged as it is made, whatever its outcome. *)
Inductive event :=
| Printed (line : str)
| Got (url : str)
| Inserted (table : str) (rows : list course)
| Slept.

(** A step of the script: from the log so far to an outcome and the log
    afterwards. *)
Definition prog (A : Type) : Type := list event → outcome A * list event.

#[export] Instance prog_ret : MRet prog := λ A a log, (Ok a, log).
#[export] Instance prog_bind : MBind prog := λ A B f c log,
  match c log with
  | (Ok a, log') => f a log'
  | (Raise e, log') => (Raise e, log')
  end.

Definition emit (e : event) : prog unit := λ log, (Ok (), log ++ [e]).
Definition raise {A} (e : exn) : prog A := λ log, (Raise e, log).
Definition lift {A} (o : outcome A) : prog A := λ log, (o, log).

(** Lines 12-15 on [os.environ] as [load_dotenv()] left it. *)
Definition truthy (v : option str) : bool :=
  match v with
  | Some (_ :: _) => true
  | _ => false
  end.

Definition config_error : exn :=
  ValueError (lit "SUPABASE_URL and SUPABASE_KEY must be set in .env file.").

Definition startup (environ : gmap string str) : outcome (str * str) :=
  let supabase_url := environ !! "SUPABASE_URL" in
  let supabase_key := environ !! "SUPABASE_KEY" in
  if negb (truthy supabase_url) || negb (truthy supabase_key)
  then Raise config_error
  else Ok (default [] supabase_url, default [] supabase_key).

Definition base_url : str := lit "https://www.washington.edu/students/crscat/".

(** [(dep_abbrev, dep_name, dep_url)] *)
Definition department : Type := str * str * str.

(** Line 30, the test on a link. *)
Definition is_department_link (href : option str) : bool :=
  match href with
  | Some h =>
      truthy href && endswith h (lit ".html")
      && negb (contains (lit "glossary") h)
      && negb (contains [ch_slash] h)
      && (5 <? length h)
  | None => false
  end.

(** Lines 29-34, one turn of the loop over the links. *)
Definition add_department (departments : list department) (a : anchor)
    : list department :=
  if is_department_link (href a) then
    let h := default [] (href a) in
    let dep_abbrev := take (length h - 5) h in
    let dep_name := strip (atext a) in
    let dep_url := base_url ++ h in
    departments ++ [(dep_abbrev, dep_name, dep_url)]
  else departments.

(** Lines 27-34. *)
Definition discover (links : list anchor) : list department :=
  foldl add_department [] links.

Section Pipeline.
Variable uni_decimal : char → bool.
Variable nfkc : str → str.
(** [requests.get(url)] through [BeautifulSoup], and
    [supabase.table(...).insert(rows).execute()]: the answers of the
    outside, which may depend on all that went before.  Either call
    returns or raises, and the script catches nothing. *)
Variable fetch : list event → str → outcome html.
Variable execute : list event → str → list course → outcome response.
(** [create_client(url, key)], which may refuse its arguments. *)
Variable create_client : str → str → outcome unit.

Definition get (url : str) : prog html :=
  λ log, (fetch log url, log ++ [Got url]).

Definition insert (table : str) (rows : list course) : prog response :=
  λ log, (execute log table rows, log ++ [Inserted table rows]).

Definition reports_error (r : response) : bool :=
  match error r with
  | Some e => truth e               (* hasattr(...) and response.error *)
  | None => false
  end.

(** Lines 82-87. *)
Definition store (dep_name : str) (courses : list course) : prog unit :=
  match courses with
  | [] => mret ()
  | _ :: _ =>
      response ← insert (lit "uw_courses") courses;
      if reports_error response then
        emit (Printed (lit "Error inserting courses for " ++ dep_name
                       ++ lit ": " ++ from_option shown [] (error response)))
      else
        emit (Printed (lit "Inserted " ++ str_of_nat (length courses)
                       ++ lit " courses for " ++ dep_name ++ lit "."))
  end.

(** Lines 51-90, one turn of the loop over the departments. *)
Definition scrape_department (dep : department) : prog unit :=
  let '(dep_abbrev, dep_name, dep_url) := dep in
  _ ← emit (Printed (lit "Scraping " ++ dep_name ++ lit "..."));
  dep_page ← get dep_url;
  courses ← lift (scan_paras uni_decimal nfkc [] (paras dep_page));
  _ ← store dep_name courses;
  emit Slept.

Fixpoint scrape_departments (deps : list department) : prog unit :=
  match deps with
  | [] => mret ()
  | dep :: deps' =>
      _ ← scrape_department dep;
      scrape_departments deps'
  end.

(** The script from line 12 on. *)
Definition main (environ : gmap string str) : prog unit :=
  config ← lift (startup environ);
  _ ← lift (create_client config.1 config.2);
  main_page ← get base_url;
  let departments := discover (anchors main_page) in
  _ ← emit (Printed (lit "Found " ++ str_of_nat (length departments)
                     ++ lit " departments."));
  _ ← scrape_departments departments;
  emit (Printed (lit "Scraping complete.")).
End Pipeline.

(** ** Instances of the Unicode tables *)

(** NFKC on text made of ASCII and white space: the white-space
    characters with a compatibility mapping go to U+0020, all else stays. *)
Definition nfkc_spaces (s : str) : str :=
  (λ c, if ((c =? 160) || (8192 <=? c) && (c <=? 8202) || (c =? 8239)
            || (c =? 8287) || (c =? 12288))%N
        then ch_space else c) <$> s.

(** Decimal digits of three scripts: ASCII, Arabic-Indic, Devanagari. *)
Definition decimal_sample (c : char) : bool :=
  ((48 <=? c) && (c <=? 57) || (1632 <=? c) && (c <=? 1641)
   || (2406 <=? c) && (c <=? 2415))%N.

Definition is_ascii (c : char) : bool := (c <? 128)%N.

Definition ascii_digit (c : char) : bool := ((48 <=? c) && (c <=? 57))%N.

(** ** What the properties ask of the Unicode tables *)

(** Facts of the Unicode database about its decimal digits. *)
Definition decimal_not_space (uni_decimal : char → bool) : Prop :=
  ∀ c, uni_decimal c = true → is_space c = false.

Definition decimal_not_upper (uni_decimal : char → bool) : Prop :=
  ∀ c, uni_decimal c = true → is_upper_AZ c = false.

Definition decimal_on_ascii (uni_decimal : char → bool) : Prop :=
  ∀ c, is_ascii c = true → uni_decimal c = ascii_digit c.

(** Facts of NFKC: ASCII text is in normal form; a white-space character
    is a boundary of normalization, with an image of white space. *)
Definition nfkc_fixes_ascii (nfkc : str → str) : Prop :=
  ∀ s, Forall (λ c, is_ascii c = true) s → nfkc s = s.

Definition nfkc_splits_at_space (nfkc : str → str) : Prop :=
  ∀ u c v, is_space c = true → nfkc (u ++ c :: v) = nfkc u ++ nfkc [c] ++ nfkc v.

Definition nfkc_keeps_space (nfkc : str → str) : Prop :=
  ∀ c, is_space c = true →
       nfkc [c] ≠ [] ∧ Forall (λ x, is_space x = true) (nfkc [c]).

(** [respaced h h']: [h'] is [h] with some of its single regular spaces
    each replaced by a non-empty run of white space (a non-breaking space
    is such a run). *)
Inductive respaced : str → str → Prop :=
| respaced_same h : respaced h h
| respaced_at u u' w v v' :
    respaced u u' → respaced v v' →
    w ≠ [] → Forall (λ x, is_space x = true) w →
    respaced (u ++ ch_space :: v) (u' ++ w ++ v').

(** The shape of a code field: letters, digits, at most one letter, and
    no white space. *)
Definition code_ok (uni_decimal : char → bool) (c : str) : Prop :=
  ∃ letters digits suffix,
    c = letters ++ digits ++ suffix ∧
    letters ≠ [] ∧ Forall (λ x, is_upper_AZ x = true) letters ∧
    digits ≠ [] ∧ Forall (λ x, uni_decimal x = true) digits ∧
    Forall (λ x, is_upper_AZ x = true) suffix ∧ length suffix ≤ 1 ∧
    Forall (λ x, is_space x = false) c.

(** What the claims on a record's title and credits ask. *)
Definition fields_ok (r : course) : Prop :=
  ∃ ttl cr,
    title r = Some ttl ∧ credits r = Some cr ∧
    ttl ≠ [] ∧
    (∀ x, head ttl = Some x → is_space x = false) ∧
    (∀ x, last ttl = Some x → is_space x = false) ∧
    ch_rparen ∉ cr.

(** An environment whose endpoint URL is set, and blank. *)
Definition env_blank_url : gmap string str :=
  {[ "SUPABASE_URL" := []; "SUPABASE_KEY" := lit "service-role-key" ]}.

Definition env_full : gmap string str :=
  {[ "SUPABASE_URL" := lit "https://example.supabase.co";
     "SUPABASE_KEY" := lit "service-role-key" ]}.

(** A department page with one course entry, and a store that answers
    every insert with an error. *)
Definition page_anth : html :=
  Html [] [Para true (lit "ANTH 100 Introduction to Anthropology (5) SSc")].

Definition fetch_anth (log : list event) (url : str) : outcome html :=
  Ok page_anth.

Definition execute_failing (log : list event) (table : str)
    (rows : list course) : outcome response :=
  Ok (Response (Some (PyVal true (lit "duplicate key")))).

(** A store whose insert raises, as a client does that reports a
    failure by an exception. *)
Definition execute_raising (log : list event) (table : str)
    (rows : list course) : outcome response :=
  Raise (LibraryError (lit "APIError") (lit "duplicate key")).

Definition dep_arch : department :=
  (lit "arch", lit "Architecture (ARCH)", base_url ++ lit "arch.html").

Definition create_client_ok (url key : str) : outcome unit := Ok ().

Definition dep_anth : department :=
  (lit "anth", lit "Anthropology (ANTH)", base_url ++ lit "anth.html").

(** Links of an index page. *)
Definition links_sample : list anchor :=
  [Anchor (Some (lit "anth.html")) (lit " Anthropology (ANTH) ");
   Anchor (Some (lit "glossary.html")) (lit "Glossary");
   Anchor (Some (lit "/students/index.html")) (lit "Students");
   Anchor None (lit "top")].

(** Two digit tables agree on the characters of a text. *)
Definition agree_on (ud ud' : char → bool) (s : str) : Prop :=
  Forall (λ c, ud c = ud' c) s.

(** [reach st st']: the pointer of [st'] is that of [st] moved on over
    some of the text. *)
Definition reach (st st' : mstate) : Prop :=
  ∃ w, rest st = w ++ rest st' ∧ pos st' = pos st + length w.

(** ** Tactics *)

(** Membership in a list written with [++] and [::]. *)
Ltac elem_tac := set_unfold; tauto.

(** Comparisons of code points that [lia] decides from the context. *)
Ltac cmp_lia :=
  repeat match goal with
         | |- context [(?a <=? ?b)%N] =>
             first [rewrite (proj2 (N.leb_le a b)) by lia
                   |rewrite (proj2 (N.leb_gt a b)) by lia]
         | |- context [(?a <? ?b)%N] =>
             first [rewrite (proj2 (N.ltb_lt a b)) by lia
                   |rewrite (proj2 (N.ltb_ge a b)) by lia]
         | |- context [(?a =? ?b)%N] =>
             first [rewrite (proj2 (N.eqb_eq a b)) by lia
                   |rewrite (proj2 (N.eqb_neq a b)) by lia]
         end.

(** Closed goals on literals: shapes, memberships, computations. *)
Ltac concrete :=
  repeat first [done | by vm_compute | split | constructor].

(** ** Reading the log *)

(** The URLs fetched, in order. *)
Definition got_urls (log : list event) : list str :=
  omap (λ e, match e with Got url => Some url | _ => None end) log.

(** The batches handed to the store, each with its table, in order. *)
Definition batches (log : list event) : list (str * list course) :=
  omap (λ e, match e with Inserted table rows => Some (table, rows) | _ => None end)
       log.

(** The number of pauses. *)
Definition naps (log : list event) : nat :=
  length (omap (λ e, match e with Slept => Some () | _ => None end) log).

(** The department a qualifying link stands for (lines 31-33). *)
Definition department_of (a : anchor) : department :=
  let h := default [] (href a) in
  (take (length h - 5) h, strip (atext a), base_url ++ h).

(** A department page without a course entry, and a store whose answer
    carries an [error] attribute that is empty. *)
Definition page_blank : html :=
  Html [] [Para true (lit "  "); Para false (lit "ANTH 100 Intro (5)")].

Definition fetch_by_url (log : list event) (url : str) : outcome html :=
  if decide (url = base_url) then Ok (Html links_sample [])
  else if decide (url = base_url ++ lit "anth.html") then Ok page_anth
  else Ok page_blank.

Definition execute_quiet (log : list event) (table : str)
    (rows : list course) : outcome response :=
  Ok (Response (Some (PyVal false []))).
(** ** The matcher against a declarative reading of the patterns *)

Section MatcherTheory.
Variable uni_decimal : char → bool.

Local Hint Constructors matches : core.

Local Abbreviation in_cls := (in_cls uni_decimal).
Local Abbreviation run := (run uni_decimal).
Local Abbreviation matches := (matches uni_decimal).
Local Abbreviation all_in := (all_in uni_decimal).
Local Abbreviation run_length := (run_length uni_decimal).
Local Abbreviation lang := (lang uni_decimal).


Lemma or_else_Some {R} (x y : option R) v :
  or_else x y = Some v → x = Some v ∨ (x = None ∧ y = Some v).
Proof. destruct x; simpl; intros; simplify_eq; auto. Qed.

Lemma or_else_is_Some {R} (x y : option R) :
  is_Some x ∨ is_Some y → is_Some (or_else x y).
Proof. destruct x; simpl; intros [[]|]; eauto; done. Qed.

Lemma is_Some_or_else {R} (x y : option R) :
  is_Some (or_else x y) → is_Some x ∨ is_Some y.
Proof. destruct x; simpl; eauto. Qed.

(** *** Soundness: a result of the matcher is a match *)

Lemma rep_loop_sound {R} a g (k : mstate → option R) :
  (∀ st (k' : mstate → option R) v,
      run a st k' = Some v → ∃ st', matches a st st' ∧ k' st' = Some v) →
  ∀ fuel need st v,
    rep_loop (run a) g k fuel need st = Some v →
    ∃ st', matches (Rep need g a) st st' ∧ k st' = Some v.
Proof.
  intros IHa. induction fuel as [|fuel IH]; intros need st v H; [done|].
  destruct need as [|need]; simpl in H.
  - assert (Hagain : ∀ v',
      run a st (λ st', if advanced st st'
                       then rep_loop (run a) g k fuel 0 st' else k st') = Some v' →
      ∃ st', matches (Rep 0 g a) st st' ∧ k st' = Some v').
    { intros v' E. apply IHa in E as (s' & Hm & Hk).
      destruct (advanced st s') eqn:A.
      - apply IH in Hk as (s'' & Hm' & Hk'). eauto.
      - eauto. }
    destruct g; apply or_else_Some in H as [H|[_ H]]; eauto.
  - apply IHa in H as (s' & Hm & Hk).
    apply IH in Hk as (s'' & Hm' & Hk'). eauto.
Qed.

Theorem run_sound {R} r :
  ∀ st (k : mstate → option R) v,
    run r st k = Some v → ∃ st', matches r st st' ∧ k st' = Some v.
Proof.
  induction r as [| |c|a IHa b IHb|lo g a IHa|g a IHa|name a IHa];
    intros st k v H; simpl in H.
  - case_decide; [eauto|done].
  - destruct (rest st) as [|c [|]] eqn:E; [eauto| |done].
    destruct (c =? ch_newline)%N eqn:Ec; [|done].
    apply N.eqb_eq in Ec as ->. eauto.
  - destruct (rest st) as [|x t] eqn:E; [done|].
    destruct (in_cls c x) eqn:Ec; [eauto|done].
  - apply IHa in H as (s1 & H1 & H). apply IHb in H as (s2 & H2 & H). eauto.
  - eapply rep_loop_sound; eauto.
  - destruct g; apply or_else_Some in H as [H|[_ H]]; eauto;
      apply IHa in H as (s1 & H1 & H); eauto.
  - apply IHa in H as (s1 & H1 & H). eauto.
Qed.

(** *** What a match consumes *)

Lemma matches_consumes r s1 s2 :
  matches r s1 s2 →
  ∃ w, rest s1 = w ++ rest s2 ∧ pos s2 = pos s1 + length w.
Proof.
  induction 1 as [st|st|c st x t E|a b s1 s2 s3 _ IH1 _ IH2
                 |lo g a s1 s2 s3 _ IH1 _ IH2|g a st
                 |g a s1 s2 s3 _ IH1 _ _ IH2|g a s1 s2 _ IH1 _
                 |g a s1 s2 _ IH1|g a st|name a s1 s2 _ IH1];
    try (exists []; simpl; split; [done|lia]);
    try (destruct IH1 as (w1 & E1 & P1), IH2 as (w2 & E2 & P2);
         exists (w1 ++ w2); rewrite E1, E2, length_app, <- app_assoc;
         split; [done|lia]);
    try done.
  exists [x]. simpl. split; [done|lia].
Qed.

Lemma matches_length r s1 s2 :
  matches r s1 s2 → length (rest s2) ≤ length (rest s1).
Proof.
  intros (w & E & _)%matches_consumes. rewrite E, length_app. lia.
Qed.

Lemma matches_advanced r s1 s2 :
  matches r s1 s2 → advanced s1 s2 = true →
  length (rest s2) < length (rest s1).
Proof.
  intros (w & E & P)%matches_consumes A. unfold advanced in A.
  apply negb_true_iff, Nat.eqb_neq in A.
  rewrite E, length_app. lia.
Qed.

(** *** Completeness: where a match exists whose continuation succeeds,
    the matcher returns a result *)


Lemma rep_loop_mono {R} (body : mstate → (mstate → option R) → option R) g :
  (∀ st k1 k2, leq_k k1 k2 → is_Some (body st k1) → is_Some (body st k2)) →
  ∀ f1 f2 (k1 k2 : mstate → option R) need st,
    f1 ≤ f2 → leq_k k1 k2 →
    is_Some (rep_loop body g k1 f1 need st) →
    is_Some (rep_loop body g k2 f2 need st).
Proof.
  intros Hbody. induction f1 as [|f1 IH]; intros f2 k1 k2 need st Hf Hk H.
  { simpl in H. by destruct H. }
  destruct f2 as [|f2]; [lia|]. apply le_S_n in Hf.
  destruct need as [|need]; simpl in *.
  - assert (Hagain :
      is_Some (body st (λ st', if advanced st st'
                               then rep_loop body g k1 f1 0 st' else k1 st')) →
      is_Some (body st (λ st', if advanced st st'
                               then rep_loop body g k2 f2 0 st' else k2 st'))).
    { apply Hbody. intros s'. destruct (advanced st s'); eauto. }
    destruct g; apply or_else_is_Some;
      apply is_Some_or_else in H as [H|H]; eauto.
  - revert H. apply Hbody. intros s'. eauto.
Qed.

Lemma run_mono {R} r :
  ∀ st (k1 k2 : mstate → option R),
    leq_k k1 k2 → is_Some (run r st k1) → is_Some (run r st k2).
Proof.
  induction r as [| |c|a IHa b IHb|lo g a IHa|g a IHa|name a IHa];
    intros st k1 k2 Hk H; simpl in *.
  - case_decide; eauto.
  - destruct (rest st) as [|c [|]]; eauto.
    destruct (c =? ch_newline)%N; eauto.
  - destruct (rest st) as [|x t]; eauto.
    destruct (in_cls c x); eauto.
  - revert H. apply IHa. intros s'. apply IHb, Hk.
  - revert H. apply rep_loop_mono; auto.
  - destruct g; apply or_else_is_Some;
      apply is_Some_or_else in H as [H|H]; eauto.
  - revert H. apply IHa. intros s'. apply Hk.
Qed.

Theorem run_complete {R} r s1 s2 :
  matches r s1 s2 →
  ∀ k : mstate → option R, is_Some (k s2) → is_Some (run r s1 k).
Proof.
  induction 1 as [st|st|c st x t E|a b s1 s2 s3 _ IH1 _ IH2
                 |lo g a s1 s2 s3 H1 IH1 _ IH2|g a st
                 |g a s1 s2 s3 H1 IH1 A _ IH2|g a s1 s2 _ IH1 A
                 |g a s1 s2 _ IH1|g a st|name a s1 s2 _ IH1];
    intros k Hk; simpl.
  - by rewrite decide_True.
  - destruct H as [-> | ->]; done.
  - by rewrite E, H.
  - auto.
  - apply IH1. specialize (IH2 k Hk). simpl in IH2. revert IH2.
    apply rep_loop_mono; [apply run_mono| |by intros ?].
    apply matches_length in H1. lia.
  - rewrite Nat.add_1_r. simpl. destruct g; apply or_else_is_Some; auto.
  - rewrite Nat.add_1_r. simpl.
    assert (is_Some (run a s1 (λ st', if advanced s1 st'
              then rep_loop (run a) g k (length (rest s1)) 0 st' else k st'))).
    { apply IH1. rewrite A. specialize (IH2 k Hk). simpl in IH2. revert IH2.
      apply rep_loop_mono; [apply run_mono| |by intros ?].
      pose proof (matches_advanced _ _ _ H1 A). lia. }
    destruct g; apply or_else_is_Some; auto.
  - rewrite Nat.add_1_r. simpl.
    assert (is_Some (run a s1 (λ st', if advanced s1 st'
              then rep_loop (run a) g k (length (rest s1)) 0 st' else k st'))).
    { apply IH1. by rewrite A. }
    destruct g; apply or_else_is_Some; auto.
  - destruct g; apply or_else_is_Some; auto.
  - destruct g; apply or_else_is_Some; auto.
  - apply IH1. done.
Qed.

(** *** Repeats of a one-character class *)


Lemma skip_0 st : skip 0 st = st.
Proof. destruct st. unfold skip. simpl. by rewrite Nat.add_0_r. Qed.

Lemma skip_S j st x t :
  rest st = x :: t → skip (S j) st = skip j (advance1 st t).
Proof. intros E. unfold skip. simpl. rewrite E. simpl. f_equal. lia. Qed.

Lemma skip_skip i j st : skip j (skip i st) = skip (i + j) st.
Proof. unfold skip. simpl. rewrite drop_drop. f_equal. lia. Qed.

Lemma rest_skip_app st w t :
  rest st = w ++ t → rest (skip (length w) st) = t.
Proof. intros E. simpl. by rewrite E, drop_app_length. Qed.


Lemma matches_group_free r s1 s2 :
  matches r s1 s2 → group_free r = true → groups s2 = groups s1.
Proof.
  induction 1; simpl in *; intros F;
    try apply andb_true_iff in F as [F1 F2]; try done;
    repeat match goal with
           | H : ?P → _ |- _ =>
               let X := fresh in assert (X : P) by assumption; specialize (H X)
           end;
    congruence.
Qed.

(** A lazy repeat of a class hands the tail the shortest run the tail
    accepts. *)
Lemma lazy_one_loop {R} c (k : mstate → option R) :
  ∀ fuel need st v,
    rep_loop (run (One c)) false k fuel need st = Some v →
    ∃ n, need ≤ n ≤ length (rest st) ∧ all_in c (take n (rest st)) ∧
         k (skip n st) = Some v ∧
         ∀ j, need ≤ j < n → k (skip j st) = None.
Proof.
  induction fuel as [|fuel IH]; intros need st v H; [done|].
  assert (Hstep : ∀ need' x t,
    rest st = x :: t → in_cls c x = true →
    rep_loop (run (One c)) false k fuel need' (advance1 st t) = Some v →
    ∃ n, S need' ≤ n ≤ length (rest st) ∧ all_in c (take n (rest st)) ∧
         k (skip n st) = Some v ∧
         ∀ j, S need' ≤ j < n → k (skip j st) = None).
  { intros need' x t E Hc Hl.
    apply IH in Hl as (n & Hn & Hw & Hk & Hmin). simpl in Hn.
    exists (S n). rewrite E. simpl.
    split; [lia|]. split; [by constructor|].
    split; [by rewrite (skip_S _ _ _ _ E)|].
    intros [|j] Hj; [lia|]. rewrite (skip_S _ _ _ _ E).
    apply Hmin. lia. }
  destruct need as [|need]; simpl in H.
  - apply or_else_Some in H as [H|[Hnone H]].
    + exists 0. rewrite skip_0. simpl.
      split; [lia|]. split; [constructor|]. split; [done|]. intros; lia.
    + destruct (rest st) as [|x t] eqn:E; [done|].
      destruct (in_cls c x) eqn:Hc; [|done].
      replace (advanced st (advance1 st t)) with true in H.
      2:{ unfold advanced. symmetry.
          apply negb_true_iff, Nat.eqb_neq. simpl. lia. }
      destruct (Hstep 0 x t eq_refl Hc H) as (n & Hn & Hw & Hk & Hmin).
      exists n. split; [lia|]. split; [done|]. split; [done|].
      intros [|j] Hj; [by rewrite skip_0|]. apply Hmin. lia.
  - destruct (rest st) as [|x t] eqn:E; [done|].
    destruct (in_cls c x) eqn:Hc; [|done].
    eapply Hstep; eauto.
Qed.

Lemma lazy_one {R} lo c st (k : mstate → option R) v :
  run (Rep lo false (One c)) st k = Some v →
  ∃ n, lo ≤ n ≤ length (rest st) ∧ all_in c (take n (rest st)) ∧
       k (skip n st) = Some v ∧
       ∀ j, lo ≤ j < n → k (skip j st) = None.
Proof. apply lazy_one_loop. Qed.


(** A greedy repeat of a class before a tail that accepts everything
    takes the whole run. *)
Lemma greedy_one_loop c :
  ∀ fuel need st,
    length (rest st) < fuel →
    rep_loop (run (One c)) true Some fuel need st =
    if decide (need ≤ run_length c (rest st))
    then Some (skip (run_length c (rest st)) st) else None.
Proof.
  induction fuel as [|fuel IH]; intros need st Hf; [lia|].
  destruct (rest st) as [|x t] eqn:E.
  - destruct need; simpl; rewrite E; simpl; [by rewrite skip_0|done].
  - simpl in Hf.
    assert (Hadv : advanced st (advance1 st t) = true).
    { unfold advanced. apply negb_true_iff, Nat.eqb_neq. simpl. lia. }
    destruct need as [|need]; simpl; rewrite E; simpl;
      destruct (in_cls c x) eqn:Hc; simpl; rewrite ?skip_0; try done.
    + rewrite Hadv, IH by (simpl; lia). simpl.
      by rewrite (skip_S _ _ _ _ E).
    + rewrite IH by (simpl; lia). simpl.
      rewrite (skip_S _ _ _ _ E).
      repeat case_decide; done || lia.
Qed.

Lemma matches_rep_one_intro lo g c st w t :
  rest st = w ++ t → all_in c w → lo ≤ length w →
  matches (Rep lo g (One c)) st (skip (length w) st).
Proof.
  revert lo st. induction w as [|x w IH]; intros lo st E Hw Hlo.
  - simpl in Hlo. assert (lo = 0) as -> by lia. rewrite skip_0. constructor.
  - apply Forall_cons in Hw as [Hx Hw]. cbn [length].
    rewrite (skip_S _ _ _ (w ++ t)) by done.
    assert (H1 : matches (One c) st (advance1 st (w ++ t))) by by eapply m_one.
    destruct lo as [|lo].
    + eapply m_rep_more; [done| |by apply IH; [|done|lia]].
      unfold advanced. apply negb_true_iff, Nat.eqb_neq. simpl. lia.
    + eapply m_rep_need; [done|]. apply IH; [done|done|simpl in Hlo; lia].
Qed.

(** *** The text a pattern consumes *)


Lemma matches_lang r s1 s2 :
  matches r s1 s2 →
  ∃ w, rest s1 = w ++ rest s2 ∧ pos s2 = pos s1 + length w ∧ lang r w.
Proof.
  induction 1 as [st|st|c st x t E|a b s1 s2 s3 _ IH1 _ IH2
                 |lo g a s1 s2 s3 _ IH1 _ IH2|g a st
                 |g a s1 s2 s3 _ IH1 _ _ IH2|g a s1 s2 _ IH1 _
                 |g a s1 s2 _ IH1|g a st|name a s1 s2 _ IH1];
    try (exists []; simpl; split_and!; [done|lia|]);
    try (destruct IH1 as (w1 & E1 & P1 & L1), IH2 as (w2 & E2 & P2 & L2);
         exists (w1 ++ w2); rewrite E1, E2, length_app, <- app_assoc;
         split_and!; [done|lia|]);
    try (destruct IH1 as (w1 & E1 & P1 & L1); exists w1;
         split_and!; [done|done|]);
    simpl; eauto.
  - exists [x]. simpl. split_and!; [done|lia|eauto].
  - destruct L2 as (ws & -> & Hws & Hlo).
    exists (w1 :: ws). split_and!; [done|by constructor|simpl; lia].
  - exists []. split_and!; [done|constructor|done].
  - destruct L2 as (ws & -> & Hws & Hlo).
    exists (w1 :: ws). split_and!; [done|by constructor|simpl; lia].
  - exists [w1]. simpl. rewrite app_nil_r.
    split_and!; [done|by repeat constructor|lia].
Qed.

Lemma lang_rep_one lo g c w :
  lang (Rep lo g (One c)) w → all_in c w ∧ lo ≤ length w.
Proof.
  intros (ws & -> & Hws & Hlo). revert lo Hlo.
  induction Hws as [|w ws (x & -> & Hx) _ IH]; intros lo Hlo.
  - simpl in *. split; [constructor|done].
  - destruct (IH (pred lo)) as [IH1 IH2]; [simpl in Hlo; lia|].
    simpl in *. split; [by constructor|lia].
Qed.
Lemma lang_cat a b w :
  lang (Cat a b) w ↔ ∃ w1 w2, w = w1 ++ w2 ∧ lang a w1 ∧ lang b w2.
Proof. done. Qed.

Lemma lang_rep lo g a w :
  lang (Rep lo g a) w ↔ ∃ ws, w = concat ws ∧ Forall (lang a) ws ∧ lo ≤ length ws.
Proof. done. Qed.

Lemma lang_opt g a w : lang (Opt g a) w ↔ w = [] ∨ lang a w.
Proof. done. Qed.

Lemma lang_one c w : lang (One c) w ↔ ∃ x, w = [x] ∧ in_cls c x = true.
Proof. done. Qed.

Lemma lang_lit c w : lang (One (CLit c)) w → w = [c].
Proof. intros (x & -> & Hx). simpl in Hx. by apply N.eqb_eq in Hx as ->. Qed.

(** *** Inversion of a match, pattern by pattern *)

Lemma matches_cat a b s1 s3 :
  matches (Cat a b) s1 s3 → ∃ s2, matches a s1 s2 ∧ matches b s2 s3.
Proof. inversion 1; eauto. Qed.

Lemma matches_opt g a s1 s2 :
  matches (Opt g a) s1 s2 → s2 = s1 ∨ matches a s1 s2.
Proof. inversion 1; eauto. Qed.

Lemma matches_plain r s1 s2 :
  matches r s1 s2 → group_free r = true →
  ∃ w, rest s1 = w ++ rest s2 ∧ pos s2 = pos s1 + length w ∧
       groups s2 = groups s1 ∧ lang r w.
Proof.
  intros H F. pose proof (matches_group_free _ _ _ H F).
  apply matches_lang in H as (w & ? & ? & ?). eauto.
Qed.

Lemma matches_group name a s1 s2 :
  matches (Group name a) s1 s2 → group_free a = true →
  ∃ w, rest s1 = w ++ rest s2 ∧ pos s2 = pos s1 + length w ∧
       groups s2 = <[name := w]> (groups s1) ∧ lang a w.
Proof.
  inversion 1 as [| | | | | | | | | |name' a' s1' s2' H']; subst. intros F.
  apply matches_plain in H' as (w & E & P & G & L); [|done].
  exists w. simpl. rewrite P, G, E.
  replace (pos s1 + length w - pos s1) with (length w) by lia.
  by rewrite take_app_length.
Qed.

(** *** From a text of the language to a match *)

Lemma lang_rep_one_intro lo g c w :
  all_in c w → lo ≤ length w → lang (Rep lo g (One c)) w.
Proof.
  intros Hw Hlo. exists ((λ x, [x]) <$> w). split_and!.
  - clear. induction w as [|x w IH]; [done|]. simpl. by f_equal.
  - clear Hlo. induction Hw as [|x w Hx _ IH]; constructor; [|done].
    by exists x.
  - by rewrite length_fmap.
Qed.

Lemma lang_consuming r w : consuming r = true → lang r w → w ≠ [].
Proof.
  revert w. induction r as [| |c|a IHa b IHb|lo g a IHa|g a IHa|name a IHa];
    intros w Hc H; simpl in Hc; try done.
  - by destruct H as (x & -> & _).
  - destruct H as (w1 & w2 & -> & H1 & H2).
    apply orb_true_iff in Hc as [Hc|Hc].
    + specialize (IHa _ Hc H1). by destruct w1.
    + specialize (IHb _ Hc H2). by destruct w1, w2.
  - apply andb_true_iff in Hc as [Hlo%Nat.ltb_lt Hc].
    destruct H as (ws & -> & Hws & Hlen).
    destruct Hws as [|w1 ws H1 _]; [simpl in Hlen; lia|].
    specialize (IHa _ Hc H1). by destruct w1.
  - by apply IHa.
Qed.

Lemma lang_matches r :
  plain r = true →
  ∀ w st t, lang r w → rest st = w ++ t → matches r st (skip (length w) st).
Proof.
  induction r as [| |c|a IHa b IHb|lo g a IHa|g a IHa|name a IHa];
    intros Hp w st t H E; simpl in Hp; try done.
  - destruct H as (x & -> & Hx). simpl in E. cbn [length].
    rewrite (skip_S _ _ _ _ E), skip_0. by eapply m_one.
  - apply andb_true_iff in Hp as [Hpa Hpb].
    destruct H as (w1 & w2 & -> & H1 & H2).
    rewrite <- app_assoc in E. rewrite length_app, <- skip_skip.
    eapply m_cat; [by eapply IHa|].
    eapply IHb; [done|done|]. by apply rest_skip_app.
  - apply andb_true_iff in Hp as [Hpa Hca].
    destruct H as (ws & -> & Hws & Hlo).
    revert lo st E Hlo. induction Hws as [|w1 ws H1 _ IH]; intros lo st E Hlo.
    + simpl in Hlo. assert (lo = 0) as -> by lia. rewrite skip_0. apply m_rep_done.
    + simpl in E. rewrite <- app_assoc in E.
      cbn [concat]. rewrite length_app, <- skip_skip.
      assert (M1 : matches a st (skip (length w1) st)) by by eapply IHa.
      assert (E1 : rest (skip (length w1) st) = concat ws ++ t)
        by by apply rest_skip_app.
      destruct lo as [|lo].
      * eapply m_rep_more; [done| |by apply IH; [|lia]].
        pose proof (lang_consuming _ _ Hca H1).
        unfold advanced. apply negb_true_iff, Nat.eqb_neq.
        destruct w1; [done|]. simpl. lia.
      * eapply m_rep_need; [done|]. apply IH; [done|simpl in Hlo; lia].
  - destruct H as [->|H].
    + rewrite skip_0. apply m_opt_none.
    + apply m_opt_some. by eapply IHa.
Qed.

(** *** The fuel of the repeat loop is never used up *)

Lemma reach_refl st : reach st st.
Proof. exists []. simpl. split; [done|lia]. Qed.

Lemma reach_trans s1 s2 s3 : reach s1 s2 → reach s2 s3 → reach s1 s3.
Proof.
  intros (w1 & E1 & P1) (w2 & E2 & P2). exists (w1 ++ w2).
  rewrite E1, E2, length_app, <- app_assoc. split; [done|lia].
Qed.

Lemma reach_length s1 s2 : reach s1 s2 → length (rest s2) ≤ length (rest s1).
Proof. intros (w & E & _). rewrite E, length_app. lia. Qed.

Lemma reach_advanced s1 s2 :
  reach s1 s2 → advanced s1 s2 = true → length (rest s2) < length (rest s1).
Proof.
  intros (w & E & P) A. unfold advanced in A.
  apply negb_true_iff, Nat.eqb_neq in A. rewrite E, length_app. lia.
Qed.

Lemma rep_loop_ext {R} (body : mstate → (mstate → option R) → option R) g :
  (∀ st k k', (∀ st', reach st st' → k st' = k' st') → body st k = body st k') →
  ∀ f f' need st (k k' : mstate → option R),
    need + length (rest st) < f → need + length (rest st) < f' →
    (∀ st', reach st st' → k st' = k' st') →
    rep_loop body g k f need st = rep_loop body g k' f' need st.
Proof.
  intros Hbody. induction f as [|f IH]; intros f' need st k k' Hf Hf' Hk; [lia|].
  destruct f' as [|f']; [lia|]. destruct need as [|need]; simpl.
  - rewrite (Hk st (reach_refl st)).
    rewrite (Hbody st _ (λ st', if advanced st st'
                               then rep_loop body g k' f' 0 st' else k' st'));
      [done|].
    intros st' Hst'. destruct (advanced st st') eqn:A; [|by apply Hk].
    pose proof (reach_advanced _ _ Hst' A).
    apply IH; [simpl in *; lia..|].
    intros st'' Hst''. apply Hk. by eapply reach_trans.
  - apply Hbody. intros st' Hst'. pose proof (reach_length _ _ Hst').
    apply IH; [simpl in *; lia..|].
    intros st'' Hst''. apply Hk. by eapply reach_trans.
Qed.

(** The matcher calls its continuation on states further on in the
    subject only. *)
Lemma run_ext {R} r :
  ∀ st (k k' : mstate → option R),
    (∀ st', reach st st' → k st' = k' st') → run r st k = run r st k'.
Proof.
  induction r as [| |c|a IHa b IHb|lo g a IHa|g a IHa|name a IHa];
    intros st k k' Hk; simpl.
  - by rewrite (Hk st (reach_refl st)).
  - by rewrite (Hk st (reach_refl st)).
  - destruct (rest st) as [|x t] eqn:E; [done|].
    rewrite (Hk (advance1 st t)); [done|].
    exists [x]. simpl. split; [done|lia].
  - apply IHa. intros s1 H1. apply IHb. intros s2 H2.
    apply Hk. by eapply reach_trans.
  - apply rep_loop_ext; [apply IHa|lia|lia|done].
  - by rewrite (IHa st k k' Hk), (Hk st (reach_refl st)).
  - apply IHa. intros s1 (w & E & P). apply Hk. by exists w.
Qed.

(** More fuel than the repeat starts with changes nothing. *)
Theorem rep_fuel_enough {R} lo g a st (k : mstate → option R) extra :
  rep_loop (run a) g k (lo + length (rest st) + 1 + extra) lo st =
  run (Rep lo g a) st k.
Proof. apply rep_loop_ext; [apply run_ext|lia|simpl; lia|done]. Qed.
End MatcherTheory.

Arguments run uni_decimal {R} r st k : simpl never.

Lemma run_cat ud {R} a b st (k : mstate → option R) :
  run ud (Cat a b) st k = run ud a st (λ st', run ud b st' k).
Proof. done. Qed.

Lemma run_group ud {R} name a st (k : mstate → option R) :
  run ud (Group name a) st k = run ud a st (λ st', k (close_group name st st')).
Proof. done. Qed.

Lemma run_rep ud {R} lo g a st (k : mstate → option R) :
  run ud (Rep lo g a) st k =
  rep_loop (run ud a) g k (lo + length (rest st) + 1) lo st.
Proof. done. Qed.

Lemma run_bol ud {R} st (k : mstate → option R) :
  run ud Bol st k = if decide (pos st = 0) then k st else None.
Proof. done. Qed.

Lemma run_eol ud {R} st (k : mstate → option R) :
  run ud Eol st k =
  match rest st with
  | [] => k st
  | [c] => if (c =? ch_newline)%N then k st else None
  | _ => None
  end.
Proof. done. Qed.

Lemma run_one ud {R} c st (k : mstate → option R) :
  run ud (One c) st k =
  match rest st with
  | x :: t => if in_cls ud c x then k (advance1 st t) else None
  | [] => None
  end.
Proof. done. Qed.

Lemma run_opt ud {R} g a st (k : mstate → option R) :
  run ud (Opt g a) st k =
  if g then or_else (run ud a st k) (k st) else or_else (k st) (run ud a st k).
Proof. done. Qed.

(** ** Normalization of a header *)



Lemma lstrip_length s : length (lstrip s) ≤ length s.
Proof. induction s as [|c t IH]; simpl; [done|]. destruct (is_space c); simpl; lia. Qed.

Lemma lstrip_suffix s : ∃ w, s = w ++ lstrip s ∧ Forall (λ c, is_space c = true) w.
Proof.
  induction s as [|c t (w & E & Hw)]; simpl; [by exists []|].
  destruct (is_space c) eqn:Hc.
  - exists (c :: w). simpl. split; [by f_equal|by constructor].
  - by exists [].
Qed.

Lemma rstrip_prefix s :
  ∃ w, s = rstrip s ++ w ∧ Forall (λ c, is_space c = true) w.
Proof.
  unfold rstrip. destruct (lstrip_suffix (reverse s)) as (w & E & Hw).
  exists (reverse w). split; [|by apply Forall_reverse].
  apply (f_equal reverse) in E.
  by rewrite reverse_involutive, reverse_app in E.
Qed.

Lemma squeeze_true_lstrip s : squeeze true s = squeeze false (lstrip s).
Proof.
  induction s as [|c t IH]; simpl; [done|].
  destruct (is_space c) eqn:Hc; [done|]. simpl. by rewrite Hc.
Qed.

Section Normalization.
Variable uni_decimal : char → bool.

Lemma drop_run_length s : drop (run_length uni_decimal CSpace s) s = lstrip s.
Proof. induction s as [|c t IH]; simpl; [done|]. by destruct (is_space c). Qed.

Lemma run_plus_space c t :
  run uni_decimal (plus space) (MState 0 (c :: t) ∅) Some =
  if is_space c
  then Some (MState (S (run_length uni_decimal CSpace t)) (lstrip t) ∅)
  else None.
Proof.
  unfold plus, space. rewrite run_rep, greedy_one_loop by (simpl; lia).
  simpl. destruct (is_space c); simpl; [|done].
  unfold skip. simpl. by rewrite drop_run_length.
Qed.

(** [re.sub(r'\s+', ' ', s)] is the scan [squeeze]. *)
Lemma sub_loop_spaces fuel s :
  length s ≤ fuel →
  sub_loop uni_decimal (plus space) [ch_space] fuel s = squeeze false s.
Proof.
  revert s. induction fuel as [|fuel IH]; intros s Hs.
  - destruct s; [done|simpl in Hs; lia].
  - destruct s as [|c t]; [done|]. simpl in Hs.
    cbn [sub_loop]. rewrite run_plus_space. simpl.
    destruct (is_space c) eqn:Hc.
    + unfold advanced. simpl. rewrite IH, squeeze_true_lstrip; [done|].
      pose proof (lstrip_length t). lia.
    + rewrite IH by lia. done.
Qed.

Lemma re_sub_spaces s :
  re_sub uni_decimal (plus space) [ch_space] s = squeeze false s.
Proof. by apply sub_loop_spaces. Qed.
End Normalization.

Lemma tidy_squeeze b s : tidy b (squeeze b s).
Proof.
  revert b. induction s as [|c t IH]; intros b; simpl; [done|].
  destruct (is_space c) eqn:Hc.
  - destruct b; [apply IH|]. simpl. split; [done|apply IH].
  - simpl. rewrite Hc. split; [done|apply IH].
Qed.

Lemma tidy_weaken b s : tidy b s → tidy false s.
Proof. destruct s; simpl; [done|]. intros [H ?]. split; [|done]. intros []%H. done. Qed.

Lemma tidy_app_l b a s : tidy b (a ++ s) → tidy b a.
Proof.
  revert b. induction a as [|c a IH]; intros b; simpl; [done|].
  intros [? ?]. split; [done|]. by eapply IH.
Qed.

Lemma tidy_app_r b a s : tidy b (a ++ s) → tidy false s.
Proof.
  revert b. induction a as [|c a IH]; intros b; simpl; [apply tidy_weaken|].
  intros [_ ?]. by eapply IH.
Qed.

Lemma tidy_strip b s : tidy b s → tidy false (strip s).
Proof.
  intros H. unfold strip.
  destruct (lstrip_suffix s) as (w & E & _).
  destruct (rstrip_prefix (lstrip s)) as (w' & E' & _).
  rewrite E, E' in H. apply tidy_app_r, tidy_app_l in H. done.
Qed.

Lemma tidy_plain b s x :
  tidy b s → x ∈ s → is_space x = true → x = ch_space.
Proof.
  revert b. induction s as [|c t IH]; intros b H Hx Hs.
  - by apply elem_of_nil in Hx.
  - destruct H as [H1 H2]. apply elem_of_cons in Hx as [->|Hx]; [|by eapply IH].
    by apply H1.
Qed.

Lemma tidy_no_newline b s : tidy b s → ch_newline ∉ s.
Proof. intros H Hx. by pose proof (tidy_plain _ _ _ H Hx eq_refl). Qed.

Lemma tidy_adjacent b a x y c :
  tidy b (a ++ x :: y :: c) → is_space x = true → is_space y = true → False.
Proof.
  intros H%tidy_app_r Hx Hy. destruct H as (_ & H & _).
  destruct (H Hy) as [_ ?]. congruence.
Qed.

Lemma tidy_ws_run b a sep c :
  tidy b (a ++ sep ++ c) → Forall (λ x, is_space x = true) sep →
  sep = [] ∨ sep = [ch_space].
Proof.
  intros H Hs. destruct sep as [|x [|y sep]]; [by left|right|exfalso].
  - apply Forall_cons in Hs as [Hx _].
    f_equal. eapply tidy_plain; [done| |done]. elem_tac.
  - apply Forall_cons in Hs as [Hx [Hy _]%Forall_cons].
    eapply (tidy_adjacent b a x y (sep ++ c)); done.
Qed.

(** A run of characters with a property ends where the first
    character without it stands: two such splits of a text agree. *)
Lemma run_unique (P : N → Prop) (a a' r r' : list N) :
  Forall P a → Forall P a' → a ++ r = a' ++ r' →
  (∀ x, head r = Some x → ¬ P x) → (∀ x, head r' = Some x → ¬ P x) →
  a = a' ∧ r = r'.
Proof.
  revert a'. induction a as [|x a IH]; intros a' Ha Ha' E Hr Hr'.
  - destruct a' as [|x' a']; [done|]. simpl in E. subst r.
    apply Forall_cons in Ha' as [Hx _]. by destruct (Hr x').
  - apply Forall_cons in Ha as [Hx Ha].
    destruct a' as [|x' a'].
    + simpl in E. subst r'. by destruct (Hr' x).
    + apply Forall_cons in Ha' as [Hx' Ha']. simpl in E.
      injection E as -> E. destruct (IH a') as [-> ->]; done.
Qed.

(** ** The header pattern *)

Section HeaderPattern.
Variable uni_decimal : char → bool.

Local Abbreviation run := (run uni_decimal).
Local Abbreviation matches := (matches uni_decimal).
Local Abbreviation lang := (lang uni_decimal).

(** What a match of the part behind the title consists of. *)
Lemma tail_inv s4 m :
  matches tail_pattern s4 m →
  ∃ gap cr after,
    rest s4 = gap ++ ch_lparen :: cr ++ ch_rparen :: after ∧
    Forall (λ x, is_space x = true) gap ∧ (ch_rparen ∉ cr) ∧
    groups m !! "credits" = Some cr ∧
    groups m !! "title" = groups s4 !! "title" ∧
    groups m !! "code" = groups s4 !! "code".
Proof.
  unfold tail_pattern. intros H.
  apply matches_cat in H as (sA & HA & H).
  apply matches_plain in HA as (gap & EA & PA & GA & LA); [|done].
  apply lang_rep_one in LA as [LA _].
  apply matches_cat in H as (sB & HB & H).
  apply matches_plain in HB as (wl & EB & PB & GB & LB%lang_lit); [|done].
  apply matches_cat in H as (sC & HC & H).
  apply matches_group in HC as (cr & EC & PC & GC & LC); [|done].
  apply lang_rep_one in LC as [LC _].
  apply matches_cat in H as (sD & HD & H).
  apply matches_plain in HD as (wr & ED & PD & GD & LD%lang_lit); [|done].
  apply matches_cat in H as (sE & HE & H).
  apply matches_plain in HE as (w3 & EE & PE & GE & _); [|done].
  apply matches_cat in H as (sF & HF & H).
  inversion H; subst.
  exists gap, cr, (rest sD).
  split. { by rewrite EA, EB, EC, ED. }
  split; [done|]. split.
  { intros Hin. unfold all_in in LC. rewrite Forall_forall in LC.
    specialize (LC _ Hin). by vm_compute in LC. }
  assert (Hcr : ∀ n, groups sE !! n = <["credits" := cr]> (groups s4) !! n).
  { intros n. by rewrite GE, GD, GC, GB, GA. }
  apply matches_opt in HF as [-> | HF].
  - rewrite !Hcr. by simplify_map_eq.
  - apply matches_group in HF as (tg & EF & PF & GF & _); [|done].
    rewrite GF. rewrite !lookup_insert_ne by done.
    rewrite !Hcr. by simplify_map_eq.
Qed.

(** The part behind the title matches wherever white space, a ['('] and
    a later [')'] follow, on a subject without line feeds. *)
Lemma tail_complete s4 gap z :
  rest s4 = gap ++ ch_lparen :: z →
  Forall (λ x, is_space x = true) gap →
  ch_rparen ∈ z → ch_newline ∉ z →
  is_Some (run tail_pattern s4 Some).
Proof.
  intros E Hgap Hrp Hnl.
  apply list_elem_of_split_l in Hrp as (x & y & -> & Hx).
  set (sA := skip (length gap) s4).
  set (sB := advance1 sA (x ++ ch_rparen :: y)).
  set (sC' := skip (length x) sB).
  set (sC := close_group "credits" sB sC').
  set (sD := advance1 sC y).
  set (sF' := skip (length y) sD).
  set (sF := close_group "tags" sD sF').
  assert (EA : rest sA = ch_lparen :: x ++ ch_rparen :: y).
  { by apply rest_skip_app. }
  assert (EC : rest sC = ch_rparen :: y).
  { apply (rest_skip_app sB x). done. }
  assert (EF : rest sF = []).
  { apply (rest_skip_app sD y). simpl. by rewrite app_nil_r. }
  apply (run_complete _ _ s4 sF); [|done].
  unfold tail_pattern.
  eapply m_cat. { apply (matches_rep_one_intro _ _ _ _ s4 gap _ E); [done|lia]. }
  eapply m_cat. { by apply (m_one _ _ sA _ _ EA). }
  eapply m_cat.
  { apply m_group. apply (matches_rep_one_intro _ _ _ _ sB x (ch_rparen :: y));
      [done| |lia].
    apply Forall_forall. intros c Hc. simpl.
    apply negb_true_iff, N.eqb_neq. intros ->. done. }
  eapply m_cat. { by apply (m_one _ _ sC _ _ EC). }
  eapply m_cat. { apply m_rep_done. }
  eapply m_cat.
  { apply m_opt_some, m_group.
    apply (matches_rep_one_intro _ _ _ _ sD y []); [by rewrite app_nil_r| |lia].
    apply Forall_forall. intros c Hc. simpl.
    apply negb_true_iff, N.eqb_neq. intros ->. apply Hnl. elem_tac. }
  by apply m_eol; left.
Qed.
(** The code group on a tidy subject: upper-case words joined by single
    spaces, a space, digits, and at most one upper-case letter. *)
Lemma join_words w words :
  join [ch_space] (w :: words) = w ++ concat (cons ch_space <$> words).
Proof.
  revert w. induction words as [|u words IH]; intros w.
  - simpl. by rewrite app_nil_r.
  - change (join [ch_space] (w :: u :: words))
      with (w ++ [ch_space] ++ join [ch_space] (u :: words)).
    by rewrite IH.
Qed.

Lemma pairs_words b pre ws post :
  tidy b (pre ++ concat ws ++ post) →
  Forall (lang (plus space ▹ plus upper)%re) ws →
  ∃ words, ws = cons ch_space <$> words ∧ Forall word_ok words.
Proof.
  revert pre. induction ws as [|p ws IH]; intros pre T Hws.
  - by exists [].
  - apply Forall_cons in Hws as [Hp Hws].
    apply lang_cat in Hp as (sep & wd & -> & [Usep Lsep]%lang_rep_one
                              & [Uwd Lwd]%lang_rep_one).
    simpl in T. rewrite <- !app_assoc in T.
    destruct (tidy_ws_run _ _ _ _ T Usep) as [->| ->]; [simpl in Lsep; lia|].
    destruct (IH (pre ++ [ch_space] ++ wd)) as (words & -> & Hwords);
      [by rewrite <- !app_assoc|done|].
    exists (wd :: words). split; [done|]. constructor; [|done].
    split; [by intros ->; simpl in Lwd; lia|done].
Qed.

Lemma code_inv C b more :
  lang code_pattern C → tidy b (C ++ more) →
  ∃ words digits suffix,
    C = join [ch_space] words ++ ch_space :: digits ++ suffix ∧
    code_text uni_decimal words digits suffix.
Proof.
  unfold code_pattern. intros H T.
  apply lang_cat in H as (w1 & r1 & -> & [U1 L1]%lang_rep_one & H).
  apply lang_cat in H as (w2 & r2 & -> & (ws & -> & Hws & _)%lang_rep & H).
  apply lang_cat in H as (sep & r3 & -> & [U3 L3]%lang_rep_one & H).
  apply lang_cat in H as (dg & sf & -> & [U4 L4]%lang_rep_one & H5).
  rewrite <- !app_assoc in T.
  destruct (pairs_words _ _ _ _ T Hws) as (words & -> & Hwords).
  rewrite (app_assoc w1) in T.
  destruct (tidy_ws_run _ _ _ _ T U3) as [->| ->]; [simpl in L3; lia|].
  exists (w1 :: words), dg, sf. split.
  { by rewrite join_words, <- !app_assoc. }
  split; [done|]. split.
  { constructor; [|done]. split; [by intros ->; simpl in L1; lia|done]. }
  split; [by intros ->; simpl in L4; lia|]. split; [done|].
  apply lang_opt in H5 as [->|(x & -> & Hx)%lang_one].
  - split; [constructor|simpl; lia].
  - split; [by repeat constructor|simpl; lia].
Qed.

(** A match of the header pattern on a tidy subject, taken apart. *)
Theorem header_match_inv s m :
  tidy false s → re_match uni_decimal header_pattern s = Some m →
  ∃ words digits suffix ttl gap cr after,
    s = (join [ch_space] words ++ ch_space :: digits ++ suffix)
        ++ ch_space :: ttl ++ gap ++ ch_lparen :: cr ++ ch_rparen :: after ∧
    code_text uni_decimal words digits suffix ∧
    group m "code" = Some (join [ch_space] words ++ ch_space :: digits ++ suffix) ∧
    group m "title" = Some ttl ∧ group m "credits" = Some cr ∧
    title_ok ttl ∧ (gap = [] ∨ gap = [ch_space]) ∧ (ch_rparen ∉ cr).
Proof.
  intros T H. unfold re_match, header_pattern in H.
  rewrite run_cat in H. apply run_sound in H as (s1 & HB & H).
  inversion HB; subst.
  rewrite run_cat in H. apply run_sound in H as (s2 & HC & H).
  apply matches_group in HC as (C & EC & PC & GC & LC); [|done].
  simpl in EC, PC, GC.
  rewrite run_cat in H. apply run_sound in H as (s3 & HW & H).
  apply matches_plain in HW as (W & EW & PW & GW & [UW LW]%lang_rep_one); [|done].
  rewrite run_cat, run_group in H.
  apply lazy_one in H as (n & Hn & UT & Hk & Hmin).
  apply run_sound in Hk as (m' & Htail & Hm). injection Hm as ->.
  apply tail_inv in Htail
    as (gap & cr & after & Et & Ugap & Hcr & Gcr & Gtitle & Gcode).
  simpl in Et, Gtitle, Gcode.
  rewrite lookup_insert_eq in Gtitle.
  rewrite lookup_insert_ne, GW, GC, lookup_insert_eq in Gcode by done.
  replace (pos s3 + n - pos s3) with n in Gtitle by lia.
  remember (take n (rest s3)) as ttl eqn:Ettl0.
  assert (E3 : rest s3 = ttl ++ gap ++ ch_lparen :: cr ++ ch_rparen :: after).
  { by rewrite <- Et, Ettl0, take_drop. }
  assert (Lt : length ttl = n) by (rewrite Ettl0; apply length_take_le; lia).
  clear Ettl0.
  assert (Es : s = C ++ [ch_space] ++ ttl ++ gap ++ ch_lparen :: cr
                     ++ ch_rparen :: after).
  { rewrite EC, EW, E3. f_equal. f_equal.
    rewrite EC, EW, E3 in T.
    destruct (tidy_ws_run _ _ _ _ T UW) as [->| ->]; [simpl in LW; lia|done]. }
  assert (Hnl : ch_newline ∉ s) by by eapply tidy_no_newline.
  destruct (code_inv C false (rest s2)) as (words & digits & suffix & EC' & Hcode);
    [done|by rewrite <- EC|].
  (* the title starts with no white space *)
  assert (Hhead : ∀ x, head ttl = Some x → is_space x = false).
  { intros x Hx. destruct ttl as [|x' ttl']; [done|].
    simpl in Hx. injection Hx as ->.
    destruct (is_space x) eqn:Hsp; [exfalso|done].
    rewrite Es in T. simpl in T.
    eapply (tidy_adjacent false C ch_space x); [exact T|done|done]. }
  (* a shorter title was refused by the part behind it *)
  assert (Hshort : ∀ j gap' z,
    1 ≤ j < n → drop j (rest s3) = gap' ++ ch_lparen :: z →
    Forall (λ x, is_space x = true) gap' → ch_rparen ∈ z → ch_newline ∉ z →
    False).
  { intros j gap' z Hj Ej Ug Hz Hnz.
    specialize (Hmin j Hj).
    destruct (tail_complete (close_group "title" s3 (skip j s3)) gap' z)
      as [v Hv]; [done..|]. congruence. }
  exists words, digits, suffix, ttl, gap, cr, after.
  rewrite <- EC'. split; [done|]. split; [done|].
  split; [done|]. split; [done|]. split; [done|].
  split; [|split; [|done]].
  - split; [by intros Hnil; rewrite Hnil in Lt; simpl in Lt; lia|].
    split; [done|]. split.
    + intros x (t' & Et')%last_Some.
      destruct (is_space x) eqn:Hsp; [exfalso|done].
      destruct t' as [|x0 t'].
      { rewrite Et' in Hhead. specialize (Hhead x eq_refl). congruence. }
      apply (Hshort (length (x0 :: t')) (x :: gap) (cr ++ ch_rparen :: after)).
      * rewrite <- Lt, Et', length_app. simpl. lia.
      * rewrite E3, Et', <- !app_assoc. by rewrite drop_app_length.
      * by constructor.
      * elem_tac.
      * intros Hin. apply Hnl. rewrite Es. elem_tac.
    + intros Hin. destruct ttl as [|x0 tl]; [by apply elem_of_nil in Hin|].
      simpl in Hin. apply list_elem_of_split in Hin as (t1 & t2 & ->).
      apply (Hshort (S (length t1)) []
               (t2 ++ gap ++ ch_lparen :: cr ++ ch_rparen :: after)).
      * rewrite <- Lt. simpl. rewrite length_app. simpl. lia.
      * rewrite E3. simpl. rewrite <- !app_assoc. by rewrite drop_app_length.
      * constructor.
      * elem_tac.
      * intros Hin. apply Hnl. rewrite Es. elem_tac.
  - rewrite Es in T. rewrite (app_assoc C), (app_assoc _ ttl) in T.
    by destruct (tidy_ws_run _ _ _ _ T Ugap) as [->| ->]; [left|right].
Qed.

(** *** Every header of the structural form is matched *)

Lemma code_lang words digits suffix :
  code_text uni_decimal words digits suffix →
  lang code_pattern (join [ch_space] words ++ ch_space :: digits ++ suffix).
Proof.
  intros (Hne & Hwords & Hd & Hdigits & Hsuffix & Hlen).
  destruct words as [|w1 words]; [done|].
  apply Forall_cons in Hwords as [[Hw1 Uw1] Hwords].
  rewrite join_words, <- app_assoc. unfold code_pattern.
  apply lang_cat. eexists _, _. split; [done|]. split.
  { apply lang_rep_one_intro; [done|]. destruct w1; [done|simpl; lia]. }
  apply lang_cat. eexists _, _. split; [done|]. split.
  { apply lang_rep. eexists. split; [done|]. split; [|lia].
    apply Forall_fmap. eapply Forall_impl; [done|].
    intros u [Hu Uu]. apply lang_cat. exists [ch_space], u.
    split; [done|]. split.
    - apply lang_rep_one_intro; [by repeat constructor|simpl; lia].
    - apply lang_rep_one_intro; [done|]. destruct u; [done|simpl; lia]. }
  apply lang_cat. exists [ch_space], (digits ++ suffix). split; [done|]. split.
  { apply lang_rep_one_intro; [by repeat constructor|simpl; lia]. }
  apply lang_cat. eexists _, _. split; [done|]. split.
  { apply lang_rep_one_intro; [done|]. destruct digits; [done|simpl; lia]. }
  apply lang_opt. destruct suffix as [|c [|]]; [by left|right|simpl in Hlen; lia].
  apply Forall_cons in Hsuffix as [Hc _]. by exists c.
Qed.

Theorem header_complete s words digits suffix ttl gap z :
  tidy false s → code_text uni_decimal words digits suffix →
  s = (join [ch_space] words ++ ch_space :: digits ++ suffix)
      ++ ch_space :: ttl ++ gap ++ ch_lparen :: z →
  ttl ≠ [] → Forall (λ x, is_space x = true) gap → ch_rparen ∈ z →
  is_Some (re_match uni_decimal header_pattern s).
Proof.
  intros T Hcode Es Httl Hgap Hz.
  set (C := join [ch_space] words ++ ch_space :: digits ++ suffix) in *.
  assert (Hnl : ch_newline ∉ s) by by eapply tidy_no_newline.
  unfold re_match, header_pattern.
  set (st0 := MState 0 s ∅).
  set (s2 := close_group "code" st0 (skip (length C) st0)).
  set (s3 := skip 1 s2).
  set (s4 := close_group "title" s3 (skip (length ttl) s3)).
  assert (E2 : rest s2 = [ch_space] ++ ttl ++ gap ++ ch_lparen :: z).
  { by apply (rest_skip_app st0 C). }
  assert (E3 : rest s3 = ttl ++ gap ++ ch_lparen :: z).
  { by apply (rest_skip_app s2 [ch_space]). }
  assert (E4 : rest s4 = gap ++ ch_lparen :: z).
  { by apply (rest_skip_app s3 ttl). }
  rewrite run_cat. apply (run_complete _ _ st0 st0); [by apply m_bol|].
  rewrite run_cat. apply (run_complete _ _ st0 s2).
  { apply m_group. eapply lang_matches; [done|by apply code_lang|done]. }
  rewrite run_cat. apply (run_complete _ _ s2 s3).
  { apply (matches_rep_one_intro _ _ _ _ s2 [ch_space] _ E2);
      [by repeat constructor|simpl; lia]. }
  rewrite run_cat. apply (run_complete _ _ s3 s4).
  { apply m_group. apply (matches_rep_one_intro _ _ _ _ s3 ttl _ E3).
    - apply Forall_forall. intros c Hc. simpl.
      apply negb_true_iff, N.eqb_neq. intros ->. apply Hnl. rewrite Es. elem_tac.
    - destruct ttl; [done|simpl; lia]. }
  apply (tail_complete s4 gap z); [done|done|done|].
  intros Hin. apply Hnl. rewrite Es. elem_tac.
Qed.

(** *** The parts of a header of the structural form are determined *)

Section Unique.
Hypothesis decimal_not_space : ∀ c, uni_decimal c = true → is_space c = false.
Hypothesis decimal_not_upper : ∀ c, uni_decimal c = true → is_upper_AZ c = false.

Lemma head_pairs words tl :
  head (concat (cons ch_space <$> words) ++ ch_space :: tl) = Some ch_space.
Proof. by destruct words. Qed.

Lemma pairs_unique words words' tl tl' :
  Forall word_ok words → Forall word_ok words' →
  concat (cons ch_space <$> words) ++ ch_space :: tl =
  concat (cons ch_space <$> words') ++ ch_space :: tl' →
  (∃ d, head tl = Some d ∧ uni_decimal d = true) →
  (∃ d, head tl' = Some d ∧ uni_decimal d = true) →
  words = words' ∧ tl = tl'.
Proof.
  intros Hw. revert words'.
  induction Hw as [|u words [Hu Uu] _ IH]; intros words' Hw' E Hd Hd'.
  - destruct Hw' as [|u' words' [Hu' Uu'] _]; [by simplify_eq/=|].
    exfalso. rewrite fmap_cons in E. simpl in E. injection E as ->.
    destruct Hd as (d & Hhd & Hd). destruct u' as [|c u']; [done|].
    simpl in Hhd. injection Hhd as ->.
    apply Forall_cons in Uu' as [Hc _].
    rewrite (decimal_not_upper _ Hd) in Hc. done.
  - destruct Hw' as [|u' words' [Hu' Uu'] Hw'].
    + exfalso. rewrite fmap_cons in E. simpl in E. injection E as <-.
      destruct Hd' as (d & Hhd & Hd'). destruct u as [|c u]; [done|].
      simpl in Hhd. injection Hhd as ->.
      apply Forall_cons in Uu as [Hc _].
      rewrite (decimal_not_upper _ Hd') in Hc. done.
    + rewrite !fmap_cons in E. simpl in E. injection E as E.
      rewrite <- !app_assoc in E.
      destruct (run_unique (λ c, is_upper_AZ c = true) u u' _ _ Uu Uu' E)
        as [-> E'].
      * intros x Hx. rewrite head_pairs in Hx. by injection Hx as <-.
      * intros x Hx. rewrite head_pairs in Hx. by injection Hx as <-.
      * destruct (IH words' Hw' E' Hd Hd') as [-> ->]. done.
Qed.

Lemma code_unique words digits suffix words' digits' suffix' x x' :
  code_text uni_decimal words digits suffix →
  code_text uni_decimal words' digits' suffix' →
  (join [ch_space] words ++ ch_space :: digits ++ suffix) ++ ch_space :: x =
  (join [ch_space] words' ++ ch_space :: digits' ++ suffix') ++ ch_space :: x' →
  words = words' ∧ digits = digits' ∧ suffix = suffix' ∧ x = x'.
Proof.
  intros (Hne & Hwords & Hd & Udigits & Usuffix & Hlen)
         (Hne' & Hwords' & Hd' & Udigits' & Usuffix' & Hlen') E.
  destruct words as [|w1 words]; [done|].
  destruct words' as [|w1' words']; [done|].
  apply Forall_cons in Hwords as [[Hw1 Uw1] Hwords].
  apply Forall_cons in Hwords' as [[Hw1' Uw1'] Hwords'].
  rewrite !join_words, <- !app_assoc in E. simpl in E.
  destruct (run_unique (λ c, is_upper_AZ c = true) w1 w1' _ _ Uw1 Uw1' E)
    as [-> E1].
  { intros c Hc. rewrite head_pairs in Hc. by injection Hc as <-. }
  { intros c Hc. rewrite head_pairs in Hc. by injection Hc as <-. }
  destruct (pairs_unique _ _ _ _ Hwords Hwords' E1) as [-> E2].
  { destruct digits as [|d digits]; [done|].
    apply Forall_cons in Udigits as [? _]. by exists d. }
  { destruct digits' as [|d digits']; [done|].
    apply Forall_cons in Udigits' as [? _]. by exists d. }
  rewrite <- !app_assoc in E2.
  assert (Hafter : ∀ sf y c,
    Forall (λ c, is_upper_AZ c = true) sf →
    head (sf ++ ch_space :: y) = Some c → ¬ uni_decimal c = true).
  { intros sf y c Hsf Hc Hdec. destruct sf as [|c' sf]; simpl in Hc;
      injection Hc as <-.
    - by pose proof (decimal_not_space _ Hdec).
    - apply Forall_cons in Hsf as [Hc _].
      by rewrite (decimal_not_upper _ Hdec) in Hc. }
  destruct (run_unique (λ c, uni_decimal c = true) digits digits' _ _
              Udigits Udigits' E2) as [-> E3]; [by eauto..|].
  destruct (run_unique (λ c, is_upper_AZ c = true) suffix suffix' _ _
              Usuffix Usuffix' E3) as [-> E4].
  { intros c Hc. by injection Hc as <-. }
  { intros c Hc. by injection Hc as <-. }
  by injection E4 as ->.
Qed.

Lemma split_unique ttl gap cr after ttl' gap' cr' after' :
  title_ok ttl → title_ok ttl' →
  Forall (λ x, is_space x = true) gap → Forall (λ x, is_space x = true) gap' →
  ch_rparen ∉ cr → ch_rparen ∉ cr' →
  ttl ++ gap ++ ch_lparen :: cr ++ ch_rparen :: after =
  ttl' ++ gap' ++ ch_lparen :: cr' ++ ch_rparen :: after' →
  ttl = ttl' ∧ gap = gap' ∧ cr = cr' ∧ after = after'.
Proof.
  intros (Hne & Hhead & Hlast & Hlp) (Hne' & Hhead' & Hlast' & Hlp')
         Ugap Ugap' Hcr Hcr' E.
  destruct ttl as [|x0 t]; [done|]. destruct ttl' as [|x0' t']; [done|].
  simpl in E, Hlp, Hlp'. injection E as -> E.
  rewrite !app_assoc in E.
  assert (Hnolp : ∀ t g, ch_lparen ∉ t → Forall (λ x, is_space x = true) g →
                         Forall (λ c, c ≠ ch_lparen) (t ++ g)).
  { intros t0 g Ht Hg. apply Forall_app. split.
    - apply Forall_forall. by intros c Hc ->.
    - eapply Forall_impl; [done|]. by intros c Hc ->. }
  destruct (run_unique (λ c, c ≠ ch_lparen) (t ++ gap) (t' ++ gap') _ _
              (Hnolp _ _ Hlp Ugap) (Hnolp _ _ Hlp' Ugap') E) as [E1 E2].
  { intros c Hc. injection Hc as <-. by intros ?. }
  { intros c Hc. injection Hc as <-. by intros ?. }
  injection E2 as E2.
  destruct (run_unique (λ c, c ≠ ch_rparen) cr cr' _ _
              ltac:(by apply Forall_forall; intros c Hc ->)
              ltac:(by apply Forall_forall; intros c Hc ->) E2) as [-> E3].
  { intros c Hc. injection Hc as <-. by intros ?. }
  { intros c Hc. injection Hc as <-. by intros ?. }
  injection E3 as ->.
  assert (E' : reverse gap ++ reverse (x0' :: t) =
               reverse gap' ++ reverse (x0' :: t')).
  { rewrite <- !reverse_app. simpl. by rewrite E1. }
  destruct (run_unique (λ c, is_space c = true) (reverse gap) (reverse gap') _ _
              ltac:(by apply Forall_reverse) ltac:(by apply Forall_reverse) E')
    as [Eg Et].
  { intros c Hc. rewrite head_reverse in Hc. by rewrite (Hlast _ Hc). }
  { intros c Hc. rewrite head_reverse in Hc. by rewrite (Hlast' _ Hc). }
  apply (inj reverse) in Eg, Et. by rewrite Eg, Et.
Qed.
End Unique.
End HeaderPattern.

(** ** The header parser *)

Lemma replace1_app old new a b :
  replace1 old new (a ++ b) = replace1 old new a ++ replace1 old new b.
Proof. unfold replace1. apply bind_app. Qed.

Lemma replace1_cons old new c s :
  replace1 old new (c :: s) =
  (if decide (c = old) then new else [c]) ++ replace1 old new s.
Proof. done. Qed.

Lemma replace1_absent old new s : old ∉ s → replace1 old new s = s.
Proof.
  induction s as [|c s IH]; intros H; [done|].
  rewrite replace1_cons, IH by elem_tac.
  rewrite decide_False; [done|]. intros ->. elem_tac.
Qed.

Lemma upper_not_space c : is_upper_AZ c = true → is_space c = false.
Proof.
  unfold is_upper_AZ, is_space, ch_A, ch_Z.
  intros [H1%N.leb_le H2%N.leb_le]%andb_true_iff. by cmp_lia.
Qed.

Lemma space_absent (P : N → Prop) s :
  (∀ c, P c → is_space c = false) → Forall P s → ch_space ∉ s.
Proof.
  intros HP Hs Hin. rewrite Forall_forall in Hs.
  specialize (HP _ (Hs _ Hin)). done.
Qed.

Lemma word_no_space w : word_ok w → ch_space ∉ w.
Proof. intros [_ H]. eapply space_absent; [apply upper_not_space|done]. Qed.

Lemma replace1_join words :
  Forall word_ok words →
  replace1 ch_space [] (join [ch_space] words) = concat words.
Proof.
  destruct words as [|w words]; [done|].
  intros [Hw Hwords]%Forall_cons. rewrite join_words, replace1_app.
  rewrite replace1_absent by by apply word_no_space.
  simpl. f_equal.
  induction Hwords as [|u words Hu _ IH]; [done|].
  rewrite fmap_cons. cbn [concat app].
  rewrite replace1_cons, decide_True by done.
  rewrite replace1_app, replace1_absent by by apply word_no_space.
  simpl. by f_equal.
Qed.

Section ScraperTheory.
Variable uni_decimal : char → bool.
Variable nfkc : str → str.

Local Abbreviation header_norm := (header_norm uni_decimal nfkc).
Local Abbreviation parse := (parse uni_decimal nfkc).
Local Abbreviation scan_header := (scan_header uni_decimal nfkc).
Local Abbreviation scan_para := (scan_para uni_decimal nfkc).
Local Abbreviation scan_paras := (scan_paras uni_decimal nfkc).
Local Abbreviation re_match := (re_match uni_decimal).
Local Abbreviation code_text := (code_text uni_decimal).

Lemma header_norm_squeeze header :
  header_norm header =
  strip (squeeze false (replace1 ch_nbsp [ch_space] (nfkc header))).
Proof. unfold header_norm. by rewrite re_sub_spaces. Qed.

Lemma tidy_header_norm header : tidy false (header_norm header).
Proof. rewrite header_norm_squeeze. eapply tidy_strip, tidy_squeeze. Qed.

(** The code field once the spaces are out of the code text. *)
Lemma code_clean_concat words digits suffix :
  (∀ c, uni_decimal c = true → is_space c = false) →
  code_text words digits suffix →
  replace1 ch_space [] (join [ch_space] words ++ ch_space :: digits ++ suffix)
  = concat words ++ digits ++ suffix.
Proof.
  intros Hd (_ & Hwords & _ & Hdigits & Hsuffix & _).
  rewrite replace1_app, replace1_join by done.
  rewrite replace1_cons, decide_True by done. simpl.
  rewrite replace1_app. f_equal. f_equal.
  - apply replace1_absent.
    by apply (space_absent (λ c, uni_decimal c = true)).
  - apply replace1_absent.
    apply (space_absent (λ c, is_upper_AZ c = true)); [apply upper_not_space|done].
Qed.

(** A header either fails to match and is passed over, or matches and
    adds the record of its three groups. *)
Lemma scan_header_cases header :
  (re_match header_pattern (header_norm header) = None ∧
   parse header = Ok None ∧
   ∀ courses, scan_header courses header = Ok courses)
  ∨
  (∃ m words digits suffix ttl gap cr after,
     re_match header_pattern (header_norm header) = Some m ∧
     group m "code" = Some (join [ch_space] words ++ ch_space :: digits ++ suffix) ∧
     header_norm header =
       (join [ch_space] words ++ ch_space :: digits ++ suffix)
       ++ ch_space :: ttl ++ gap ++ ch_lparen :: cr ++ ch_rparen :: after ∧
     code_text words digits suffix ∧ title_ok ttl ∧
     (gap = [] ∨ gap = [ch_space]) ∧ (ch_rparen ∉ cr) ∧
     let r := {| code := replace1 ch_space []
                   (join [ch_space] words ++ ch_space :: digits ++ suffix);
                 title := Some ttl; credits := Some cr |} in
     parse header = Ok (Some r) ∧
     ∀ courses, scan_header courses header = Ok (courses ++ [r])).
Proof.
  destruct (re_match header_pattern (header_norm header)) as [m|] eqn:Hm.
  - right.
    destruct (header_match_inv _ _ _ (tidy_header_norm header) Hm)
      as (words & digits & suffix & ttl & gap & cr & after
          & Es & Hcode & Gcode & Gtitle & Gcr & Httl & Hgap & Hcr).
    exists m, words, digits, suffix, ttl, gap, cr, after.
    split; [done|]. split; [done|]. split; [done|]. split; [done|].
    split; [done|]. split; [done|]. split; [done|].
    unfold parse, scan_header.
    rewrite Hm. unfold course_data. rewrite Gcode, Gtitle, Gcr. done.
  - left. unfold parse, scan_header.
    rewrite Hm. done.
Qed.

Lemma scan_header_parse courses header :
  scan_header courses header =
  match parse header with
  | Ok (Some r) => Ok (courses ++ [r])
  | Ok None => Ok courses
  | Raise e => Raise e
  end.
Proof.
  unfold parse, scan_header.
  destruct (re_match _ _); [|done]. by destruct (course_data _).
Qed.

(** Scanning a page raises nothing, and what holds of every parsed
    record holds of every record collected. *)
Lemma scan_paras_inv (P : course → Prop) :
  (∀ header r, parse header = Ok (Some r) → P r) →
  ∀ ps courses, Forall P courses →
    ∃ courses', scan_paras courses ps = Ok courses' ∧ Forall P courses'.
Proof.
  intros HP. induction ps as [|p ps IH]; intros courses Hc; [by eexists|].
  simpl.
  assert (∃ cs, scan_para courses p = Ok cs ∧ Forall P cs) as (cs & -> & Hcs).
  { unfold scan_para. destruct (has_b p); [|by eexists].
    destruct (strip <$> _) as [|header lines]; [by eexists|].
    destruct (scan_header_cases header)
      as [(_ & _ & ->)|(m & ? & ? & ? & ? & ? & ? & ? & _ & _ & _ & _ & _ & _ & _
                         & Hp & ->)]; [by eexists|].
    eexists. split; [done|]. apply Forall_app. split; [done|].
    repeat constructor. by eapply HP. }
  by apply IH.
Qed.
End ScraperTheory.

(** ** Headers of the structural form *)

Section Structural.
Variable uni_decimal : char → bool.
Variable nfkc : str → str.
Hypothesis Hspace : decimal_not_space uni_decimal.
Hypothesis Hupper : decimal_not_upper uni_decimal.

Local Abbreviation header_norm := (header_norm uni_decimal nfkc).
Local Abbreviation parse := (parse uni_decimal nfkc).
Local Abbreviation scan_header := (scan_header uni_decimal nfkc).
Local Abbreviation re_match := (re_match uni_decimal).
Local Abbreviation code_text := (code_text uni_decimal).

(** A header whose normal form reads code, space, title, optional space
    and a parenthesis group is matched, with that code. *)
Lemma parse_structural header words digits suffix ttl gap z :
  code_text words digits suffix →
  header_norm header =
    (join [ch_space] words ++ ch_space :: digits ++ suffix)
    ++ ch_space :: ttl ++ gap ++ ch_lparen :: z →
  ttl ≠ [] → Forall (λ x, is_space x = true) gap → ch_rparen ∈ z →
  ∃ m ttl' gap' cr' after',
    re_match header_pattern (header_norm header) = Some m ∧
    group m "code" = Some (join [ch_space] words ++ ch_space :: digits ++ suffix) ∧
    ttl ++ gap ++ ch_lparen :: z =
      ttl' ++ gap' ++ ch_lparen :: cr' ++ ch_rparen :: after' ∧
    title_ok ttl' ∧ (gap' = [] ∨ gap' = [ch_space]) ∧ (ch_rparen ∉ cr') ∧
    let r := {| code := replace1 ch_space []
                  (join [ch_space] words ++ ch_space :: digits ++ suffix);
                title := Some ttl'; credits := Some cr' |} in
    parse header = Ok (Some r) ∧
    ∀ courses, scan_header courses header = Ok (courses ++ [r]).
Proof.
  intros Hcode Es Httl Hgap Hz.
  pose proof (header_complete uni_decimal _ _ _ _ _ _ _
                (tidy_header_norm _ _ header) Hcode Es Httl Hgap Hz) as [m0 Hm0].
  destruct (scan_header_cases uni_decimal nfkc header)
    as [(Hnone & _)|(m & words' & digits' & suffix' & ttl' & gap' & cr' & after'
                     & Hm & Gcode & Es' & Hcode' & Httl' & Hgap' & Hcr' & Hp & Hs)].
  { congruence. }
  rewrite Es in Es'.
  destruct (code_unique uni_decimal Hspace Hupper _ _ _ _ _ _ _ _ Hcode Hcode' Es')
    as (-> & -> & -> & E).
  exists m, ttl', gap', cr', after'. done.
Qed.

Lemma parse_structural_full header words digits suffix ttl gap cr after :
  code_text words digits suffix → title_ok ttl →
  Forall (λ x, is_space x = true) gap → ch_rparen ∉ cr →
  header_norm header =
    (join [ch_space] words ++ ch_space :: digits ++ suffix)
    ++ ch_space :: ttl ++ gap ++ ch_lparen :: cr ++ ch_rparen :: after →
  parse header =
    Ok (Some {| code := concat words ++ digits ++ suffix;
                title := Some ttl; credits := Some cr |}).
Proof.
  intros Hcode Httl Hgap Hcr Es.
  destruct (parse_structural header words digits suffix ttl gap
              (cr ++ ch_rparen :: after) Hcode Es)
    as (m & ttl' & gap' & cr' & after' & _ & _ & E & Httl' & Hgap' & Hcr' & Hp & _);
    [by destruct Httl|done|elem_tac|].
  assert (Ugap' : Forall (λ x, is_space x = true) gap')
    by (destruct Hgap' as [->| ->]; by repeat constructor).
  destruct (split_unique _ _ _ _ _ _ _ _ Httl Httl' Hgap Ugap' Hcr Hcr' E)
    as (<- & _ & <- & _).
  simpl in Hp. by rewrite (code_clean_concat uni_decimal) in Hp.
Qed.
End Structural.

(** ** Parenthesis groups through the normalization *)

Lemma space_not_paren c :
  is_space c = true → (c =? ch_lparen)%N = false ∧ (c =? ch_rparen)%N = false.
Proof.
  intros H. split; apply N.eqb_neq; intros ->; by vm_compute in H.
Qed.

Lemma has_paren_group_intro a b c :
  has_paren_group (a ++ ch_lparen :: b ++ ch_rparen :: c) = true.
Proof.
  induction a as [|x a IH]; simpl.
  - rewrite existsb_app. simpl. by rewrite orb_true_r.
  - by rewrite IH, orb_true_r.
Qed.

Lemma has_rparen_squeeze b s :
  existsb (λ x, (x =? ch_rparen)%N) (squeeze b s) =
  existsb (λ x, (x =? ch_rparen)%N) s.
Proof.
  revert b. induction s as [|c s IH]; intros b; simpl; [done|].
  destruct (is_space c) eqn:Hc.
  - destruct (space_not_paren c Hc) as [_ ->].
    destruct b; simpl; by rewrite IH.
  - simpl. by rewrite IH.
Qed.

Lemma has_paren_group_squeeze b s :
  has_paren_group (squeeze b s) = has_paren_group s.
Proof.
  revert b. induction s as [|c s IH]; intros b; simpl; [done|].
  destruct (is_space c) eqn:Hc.
  - destruct (space_not_paren c Hc) as [-> _].
    destruct b; simpl; by rewrite IH.
  - simpl. by rewrite IH, has_rparen_squeeze.
Qed.

Lemma has_rparen_replace s :
  existsb (λ x, (x =? ch_rparen)%N) (replace1 ch_nbsp [ch_space] s) =
  existsb (λ x, (x =? ch_rparen)%N) s.
Proof.
  induction s as [|c s IH]; [done|]. rewrite replace1_cons.
  case_decide as Hc; simpl; rewrite IH; [by subst c|done].
Qed.

Lemma has_paren_group_replace s :
  has_paren_group (replace1 ch_nbsp [ch_space] s) = has_paren_group s.
Proof.
  induction s as [|c s IH]; [done|]. rewrite replace1_cons.
  case_decide as Hc; simpl; rewrite IH, ?has_rparen_replace; [by subst c|done].
Qed.

Lemma has_paren_group_spaces_l w s :
  Forall (λ c, is_space c = true) w →
  has_paren_group (w ++ s) = has_paren_group s.
Proof.
  induction 1 as [|c w Hc _ IH]; simpl; [done|].
  destruct (space_not_paren c Hc) as [-> _]. done.
Qed.

Lemma has_paren_group_spaces_r s w :
  Forall (λ c, is_space c = true) w →
  has_paren_group (s ++ w) = has_paren_group s.
Proof.
  intros Hw.
  assert (Hrp : existsb (λ x, (x =? ch_rparen)%N) w = false).
  { induction Hw as [|c w Hc _ IH]; simpl; [done|].
    destruct (space_not_paren c Hc) as [_ ->]. done. }
  assert (Hlp : has_paren_group w = false).
  { rewrite <- (app_nil_r w). by rewrite has_paren_group_spaces_l. }
  induction s as [|c s IH]; simpl; [done|].
  by rewrite IH, existsb_app, Hrp, orb_false_r.
Qed.

Lemma has_paren_group_strip s : has_paren_group (strip s) = has_paren_group s.
Proof.
  unfold strip.
  destruct (lstrip_suffix s) as (w & E & Hw).
  destruct (rstrip_prefix (lstrip s)) as (w' & E' & Hw').
  rewrite E at 2. rewrite has_paren_group_spaces_l by done.
  rewrite E' at 2. by rewrite has_paren_group_spaces_r.
Qed.

Lemma has_paren_group_header_norm uni_decimal nfkc header :
  has_paren_group (header_norm uni_decimal nfkc header) =
  has_paren_group (nfkc header).
Proof.
  rewrite header_norm_squeeze, has_paren_group_strip.
  by rewrite has_paren_group_squeeze, has_paren_group_replace.
Qed.

(** ** The matcher and the digits of the subject *)

(** The matcher asks the digit table about characters of the subject
    only: two tables that agree there give the same result. *)
Section Agree.
Variables ud ud' : char → bool.

Local Abbreviation agree_on := (agree_on ud ud').

Lemma rep_loop_agree {R} a g :
  (∀ st (k k' : mstate → option R),
     agree_on (rest st) →
     (∀ st', agree_on (rest st') → k st' = k' st') →
     run ud a st k = run ud' a st k') →
  ∀ fuel need st (k k' : mstate → option R),
    agree_on (rest st) →
    (∀ st', agree_on (rest st') → k st' = k' st') →
    rep_loop (run ud a) g k fuel need st = rep_loop (run ud' a) g k' fuel need st.
Proof.
  intros IHa. induction fuel as [|fuel IH]; intros need st k k' Hst Hk; [done|].
  destruct need as [|need]; simpl.
  - rewrite (Hk st Hst).
    rewrite (IHa st _ (λ st', if advanced st st'
                             then rep_loop (run ud' a) g k' fuel 0 st'
                             else k' st')); [done|done|].
    intros st' Hst'. destruct (advanced st st'); auto.
  - apply IHa; [done|]. intros st' Hst'. by apply IH.
Qed.

Lemma run_agree {R} r :
  ∀ st (k k' : mstate → option R),
    agree_on (rest st) →
    (∀ st', agree_on (rest st') → k st' = k' st') →
    run ud r st k = run ud' r st k'.
Proof.
  induction r as [| |c|a IHa b IHb|lo g a IHa|g a IHa|name a IHa];
    intros st k k' Hst Hk.
  - rewrite !run_bol. case_decide; auto.
  - rewrite !run_eol. pose proof (Hk st Hst) as Hkst.
    destruct (rest st) as [|c [|]]; [done| |done].
    by destruct (c =? ch_newline)%N.
  - rewrite !run_one. destruct (rest st) as [|x t] eqn:E; [done|].
    apply Forall_cons in Hst as [Hx Ht].
    replace (in_cls ud' c x) with (in_cls ud c x) by (by destruct c).
    destruct (in_cls ud c x); [|done]. by apply Hk.
  - rewrite !run_cat. apply IHa; [done|]. intros st' Hst'. by apply IHb.
  - rewrite !run_rep. by apply rep_loop_agree.
  - rewrite !run_opt. by rewrite (IHa st k k' Hst Hk), (Hk st Hst).
  - rewrite !run_group. apply IHa; [done|]. intros st' Hst'. by apply Hk.
Qed.

Lemma re_match_agree r s :
  agree_on s → re_match ud r s = re_match ud' r s.
Proof. intros Hs. unfold re_match. by apply run_agree. Qed.
End Agree.

(** ** The instances of the tables *)

Lemma decimal_sample_ranges c :
  decimal_sample c = true →
  (48 ≤ c ≤ 57 ∨ 1632 ≤ c ≤ 1641 ∨ 2406 ≤ c ≤ 2415)%N.
Proof.
  unfold decimal_sample.
  rewrite !orb_true_iff, !andb_true_iff, !N.leb_le. tauto.
Qed.

Lemma decimal_sample_not_space : decimal_not_space decimal_sample.
Proof.
  intros c Hc%decimal_sample_ranges. unfold is_space.
  destruct Hc as [?|[?|?]]; by cmp_lia.
Qed.

Lemma decimal_sample_not_upper : decimal_not_upper decimal_sample.
Proof.
  intros c Hc%decimal_sample_ranges. unfold is_upper_AZ, ch_A, ch_Z.
  destruct Hc as [?|[?|?]]; by cmp_lia.
Qed.

Lemma decimal_sample_on_ascii : decimal_on_ascii decimal_sample.
Proof.
  intros c Hc%N.ltb_lt. unfold decimal_sample, ascii_digit.
  destruct (N.le_gt_cases 48 c), (N.le_gt_cases c 57); by cmp_lia.
Qed.

Lemma nfkc_spaces_fixes_ascii : nfkc_fixes_ascii nfkc_spaces.
Proof.
  intros s Hs. unfold nfkc_spaces.
  induction Hs as [|c s Hc%N.ltb_lt _ IH]; [done|].
  rewrite fmap_cons, IH. f_equal. by cmp_lia.
Qed.

Lemma nfkc_spaces_splits : nfkc_splits_at_space nfkc_spaces.
Proof. intros u c v _. unfold nfkc_spaces. by rewrite fmap_app. Qed.

Lemma nfkc_spaces_keeps_space : nfkc_keeps_space nfkc_spaces.
Proof.
  intros c Hc. unfold nfkc_spaces. simpl. split; [done|].
  repeat constructor. by destruct (_ || _).
Qed.

(** ** White space in the raw header *)

Lemma squeeze_true_spaces w q :
  Forall (λ x, is_space x = true) w → squeeze true (w ++ q) = squeeze true q.
Proof. induction 1 as [|x w Hx _ IH]; simpl; [done|]. by rewrite Hx. Qed.

(** A run of white space counts as one space, wherever it stands. *)
Lemma squeeze_run b p w q :
  w ≠ [] → Forall (λ x, is_space x = true) w →
  squeeze b (p ++ w ++ q) = squeeze b (p ++ ch_space :: q).
Proof.
  intros Hne Hw. revert b. induction p as [|c p IH]; intros b.
  - destruct Hw as [|x w Hx Hw]; [done|]. simpl. rewrite Hx.
    by rewrite squeeze_true_spaces.
  - simpl. destruct (is_space c); [destruct b|]; by rewrite IH.
Qed.

Lemma replace_nbsp_spaces w :
  Forall (λ x, is_space x = true) w →
  Forall (λ x, is_space x = true) (replace1 ch_nbsp [ch_space] w).
Proof.
  induction 1 as [|x w Hx _ IH]; [constructor|].
  rewrite replace1_cons. case_decide; simpl; by constructor.
Qed.

Lemma replace_nbsp_nil w : replace1 ch_nbsp [ch_space] w = [] → w = [].
Proof. destruct w as [|x w]; [done|]. rewrite replace1_cons. by case_decide. Qed.

Section Respaced.
Variable uni_decimal : char → bool.
Variable nfkc : str → str.
Hypothesis Hsplit : nfkc_splits_at_space nfkc.
Hypothesis Hkeep : nfkc_keeps_space nfkc.

Lemma nfkc_nil : nfkc [] = [].
Proof.
  pose proof (Hsplit [] ch_space [] eq_refl) as E. simpl in E.
  apply (f_equal length) in E. rewrite !length_app in E.
  destruct (nfkc []); [done|simpl in E; lia].
Qed.

(** The image of a run of white space is a run of white space, and the
    text on either side is normalized by itself. *)
Lemma nfkc_run u w v :
  w ≠ [] → Forall (λ x, is_space x = true) w →
  ∃ w', nfkc (u ++ w ++ v) = nfkc u ++ w' ++ nfkc v ∧
        w' ≠ [] ∧ Forall (λ x, is_space x = true) w'.
Proof.
  intros Hne Hw. revert u.
  induction Hw as [|c w Hc Hw IH]; intros u; [done|].
  destruct (Hkeep c Hc) as [Hc1 Hc2].
  destruct w as [|c' w].
  - exists (nfkc [c]). simpl. by rewrite Hsplit.
  - destruct (IH ltac:(done) []) as (w' & E & Hw1 & Hw2).
    simpl in E. rewrite nfkc_nil in E. simpl in E.
    exists (nfkc [c] ++ w'). split_and!.
    + change (u ++ (c :: c' :: w) ++ v) with (u ++ c :: (c' :: w) ++ v).
      rewrite Hsplit by done. change ((c' :: w) ++ v) with (c' :: w ++ v).
      rewrite E. by rewrite <- !app_assoc.
    + by destruct (nfkc [c]).
    + by apply Forall_app.
Qed.

Lemma respaced_squeeze h h' :
  respaced h h' →
  ∀ b pre post,
    squeeze b (pre ++ replace1 ch_nbsp [ch_space] (nfkc h) ++ post) =
    squeeze b (pre ++ replace1 ch_nbsp [ch_space] (nfkc h') ++ post).
Proof.
  induction 1 as [h|u u' w v v' _ IHu _ IHv Hne Hw]; intros b pre post; [done|].
  destruct (nfkc_run u [ch_space] v) as (w1 & E1 & Hw1 & Uw1);
    [done|by repeat constructor|].
  destruct (nfkc_run u' w v') as (w2 & E2 & Hw2 & Uw2); [done|done|].
  simpl in E1. rewrite E1, E2.
  rewrite !replace1_app, <- !app_assoc.
  rewrite IHu.
  rewrite (app_assoc pre), (app_assoc _ (replace1 _ _ w1)),
          (app_assoc pre _ (replace1 _ _ w2 ++ _)),
          (app_assoc _ (replace1 _ _ w2)).
  rewrite IHv. rewrite <- !app_assoc.
  rewrite (app_assoc pre), (app_assoc pre _ (replace1 _ _ w2 ++ _)).
  rewrite (squeeze_run _ _ (replace1 _ _ w1)), (squeeze_run _ _ (replace1 _ _ w2));
    [done|..]; try (by apply replace_nbsp_spaces);
    by intros ?%replace_nbsp_nil.
Qed.

Lemma respaced_header_norm h h' :
  respaced h h' →
  header_norm uni_decimal nfkc h = header_norm uni_decimal nfkc h'.
Proof.
  intros H. rewrite !header_norm_squeeze. f_equal.
  pose proof (respaced_squeeze h h' H false [] []) as E.
  simpl in E. by rewrite !app_nil_r in E.
Qed.
End Respaced.

(** ** Substrings *)

Lemma is_prefix_spec p s : is_prefix p s = true ↔ ∃ t, s = p ++ t.
Proof.
  revert s. induction p as [|a p IH]; intros s; simpl.
  - split; [by exists s|done].
  - destruct s as [|b s]; [split; [done|by intros (t & ?)]|].
    rewrite andb_true_iff, N.eqb_eq, IH. split.
    + intros [-> (t & ->)]. by exists t.
    + intros (t & E). injection E as -> ->. eauto.
Qed.

Lemma contains_spec needle s :
  contains needle s = true ↔ ∃ a b, s = a ++ needle ++ b.
Proof.
  induction s as [|c s IH]; simpl; rewrite orb_true_iff, is_prefix_spec.
  - split.
    + intros [(t & E)|?]; [|done]. by exists [], t.
    + intros (a & b & E). left. destruct a; [by exists b|done].
  - rewrite IH. split.
    + intros [(t & E)|(a & b & ->)]; [by exists [], t|by exists (c :: a), b].
    + intros ([|c' a] & b & E); [left; by exists b|right].
      injection E as -> ->. eauto.
Qed.

Lemma endswith_spec s suffix :
  endswith s suffix = true ↔ ∃ t, s = t ++ suffix.
Proof.
  unfold endswith. rewrite is_prefix_spec. split.
  - intros (t & E). exists (reverse t). apply (inj reverse).
    by rewrite E, reverse_app, reverse_involutive.
  - intros (t & ->). exists (reverse t). by rewrite reverse_app.
Qed.

(** ** Discovery of the departments *)

Lemma department_link_inv h :
  is_department_link (Some h) = true →
  h = take (length h - 5) h ++ lit ".html" ∧
  contains (lit "glossary") h = false ∧ contains [ch_slash] h = false ∧
  5 < length h.
Proof.
  unfold is_department_link.
  rewrite !andb_true_iff, !negb_true_iff, Nat.ltb_lt.
  intros ((((_ & (t & ->)%endswith_spec) & Hg) & Hs) & Hl).
  split; [|done]. rewrite length_app.
  replace (length t + length (lit ".html") - 5) with (length t)
    by (change (length (lit ".html")) with 5; lia).
  by rewrite take_app_length.
Qed.

Lemma discover_from acc links d :
  d ∈ foldl add_department acc links →
  d ∈ acc ∨
  ∃ a h, a ∈ links ∧ href a = Some h ∧ is_department_link (Some h) = true ∧
         d = (take (length h - 5) h, strip (atext a), base_url ++ h).
Proof.
  revert acc. induction links as [|a links IH]; intros acc; simpl; [by left|].
  intros [Hd|(a' & h & Ha' & ?)]%IH; [|right; exists a', h; split; [elem_tac|done]].
  unfold add_department in Hd.
  destruct (is_department_link (href a)) eqn:Hlink; [|by left].
  apply elem_of_app in Hd as [Hd|Hd]; [by left|right].
  apply list_elem_of_singleton in Hd as ->.
  destruct (href a) as [h|] eqn:Hh; [|done].
  exists a, h. split; [elem_tac|done].
Qed.

(** ** The loop over the departments *)

Section PipelineTheory.
Variable uni_decimal : char → bool.
Variable nfkc : str → str.
Variable fetch : list event → str → outcome html.
Variable execute : list event → str → list course → outcome response.
Variable create_client : str → str → outcome unit.

Local Abbreviation scan_paras := (scan_paras uni_decimal nfkc).
Local Abbreviation store := (store execute).
Local Abbreviation scrape_department :=
  (scrape_department uni_decimal nfkc fetch execute).
Local Abbreviation scrape_departments :=
  (scrape_departments uni_decimal nfkc fetch execute).
Local Abbreviation main := (main uni_decimal nfkc fetch execute create_client).

Lemma scan_paras_total courses ps : ∃ courses', scan_paras courses ps = Ok courses'.
Proof.
  destruct (scan_paras_inv uni_decimal nfkc (λ _, True) ltac:(done) ps courses)
    as (cs & E & _); [by apply Forall_true|]. eauto.
Qed.

(** Storing a batch asks for at most one insert; what the insert raises
    is raised on, with nothing printed. *)
Lemma store_cases dep_name courses log :
  store dep_name courses log =
  match courses with
  | [] => (Ok (), log)
  | _ :: _ =>
      match execute log (lit "uw_courses") courses with
      | Ok response =>
          (Ok (), log ++ [Inserted (lit "uw_courses") courses;
             Printed (if reports_error response
                      then lit "Error inserting courses for " ++ dep_name
                           ++ lit ": " ++ from_option shown [] (error response)
                      else lit "Inserted " ++ str_of_nat (length courses)
                           ++ lit " courses for " ++ dep_name ++ lit ".")])
      | Raise e => (Raise e, log ++ [Inserted (lit "uw_courses") courses])
      end
  end.
Proof.
  destruct courses as [|r courses]; [done|].
  unfold store, insert, emit, mbind, prog_bind.
  destruct (execute log (lit "uw_courses") (r :: courses)) as [response|e];
    [|done].
  destruct (reports_error response); by rewrite <- app_assoc.
Qed.

(** One turn of the loop, by what the outside answers. *)
Lemma scrape_department_cases dep_abbrev dep_name dep_url log :
  match fetch (log ++ [Printed (lit "Scraping " ++ dep_name ++ lit "...")])
              dep_url with
  | Raise e =>
      scrape_department (dep_abbrev, dep_name, dep_url) log =
        (Raise e, log ++ [Printed (lit "Scraping " ++ dep_name ++ lit "...");
                          Got dep_url])
  | Ok dep_page =>
      ∃ courses,
        scan_paras [] (paras dep_page) = Ok courses ∧
        scrape_department (dep_abbrev, dep_name, dep_url) log =
          match courses with
          | [] =>
              (Ok (), log ++ [Printed (lit "Scraping " ++ dep_name ++ lit "...");
                              Got dep_url; Slept])
          | _ :: _ =>
              match execute (log ++ [Printed (lit "Scraping " ++ dep_name
                                                ++ lit "...");
                                     Got dep_url])
                            (lit "uw_courses") courses with
              | Ok response =>
                  (Ok (),
                   log ++ [Printed (lit "Scraping " ++ dep_name ++ lit "...");
                           Got dep_url;
                           Inserted (lit "uw_courses") courses;
                           Printed
                             (if reports_error response
                              then lit "Error inserting courses for " ++ dep_name
                                   ++ lit ": "
                                   ++ from_option shown [] (error response)
                              else lit "Inserted " ++ str_of_nat (length courses)
                                   ++ lit " courses for " ++ dep_name
                                   ++ lit ".");
                           Slept])
              | Raise e =>
                  (Raise e,
                   log ++ [Printed (lit "Scraping " ++ dep_name ++ lit "...");
                           Got dep_url;
                           Inserted (lit "uw_courses") courses])
              end
          end
  end.
Proof.
  unfold scrape_department, mbind, prog_bind, emit, get, lift.
  cbv beta iota.
  destruct (fetch _ dep_url) as [dep_page|e]; [|by rewrite <- app_assoc].
  destruct (scan_paras_total [] (paras dep_page)) as [courses Hc].
  exists courses. split; [done|].
  rewrite Hc, store_cases, <- !app_assoc. cbn [app].
  destruct courses as [|r courses]; [by rewrite <- app_assoc|].
  destruct (execute _ _ (r :: courses)) as [response|e];
    by rewrite <- ?app_assoc.
Qed.

Lemma scrape_department_extends dep log :
  ∃ more, snd (scrape_department dep log) = log ++ more.
Proof.
  destruct dep as [[dep_abbrev dep_name] dep_url].
  pose proof (scrape_department_cases dep_abbrev dep_name dep_url log) as H.
  destruct (fetch _ dep_url) as [dep_page|e]; [|rewrite H; by eexists].
  destruct H as (courses & _ & ->).
  destruct courses as [|r courses]; [by eexists|].
  destruct (execute _ _ (r :: courses)); by eexists.
Qed.

Lemma scrape_departments_cons dep deps log :
  scrape_departments (dep :: deps) log =
  match scrape_department dep log with
  | (Ok _, log') => scrape_departments deps log'
  | (Raise e, log') => (Raise e, log')
  end.
Proof. done. Qed.

Lemma scrape_departments_extends deps log :
  ∃ more, snd (scrape_departments deps log) = log ++ more.
Proof.
  revert log. induction deps as [|dep deps IH]; intros log.
  - exists []. by rewrite app_nil_r.
  - rewrite scrape_departments_cons.
    destruct (scrape_department_extends dep log) as [more Hmore].
    destruct (scrape_department dep log) as [[[]|e] log']; simpl in Hmore;
      subst log'; [|by exists more].
    destruct (IH (log ++ more)) as [more' ->].
    exists (more ++ more'). by rewrite app_assoc.
Qed.

Lemma main_cases environ log :
  match startup environ with
  | Raise e => main environ log = (Raise e, log)
  | Ok config =>
      match create_client config.1 config.2 with
      | Raise e => main environ log = (Raise e, log)
      | Ok _ =>
          ∃ outcome more,
            main environ log = (outcome, log ++ Got base_url :: more)
      end
  end.
Proof.
  unfold main, mbind, prog_bind, lift, get, emit.
  destruct (startup environ) as [config|e]; [|done].
  destruct (create_client config.1 config.2) as [[]|e]; [|done].
  destruct (fetch log base_url) as [main_page|e]; [|by exists (Raise e), []].
  match goal with
  | |- context [scrape_departments ?d ?l] =>
      destruct (scrape_departments_extends d l) as [more Hmore];
      destruct (scrape_departments d l) as [[[]|e] log']
  end; simpl in Hmore; subst log'; eexists _, _; rewrite <- !app_assoc; done.
Qed.
End PipelineTheory.

(** ** ASCII headers *)

Lemma forallb_Forall (p : N → bool) s :
  forallb p s = true → Forall (λ c, p c = true) s.
Proof.
  induction s as [|c s IH]; simpl; [constructor|].
  intros [? ?]%andb_true_iff. constructor; auto.
Qed.

Lemma squeeze_Forall (P : N → Prop) b s :
  P ch_space → Forall P s → Forall P (squeeze b s).
Proof.
  intros Hsp Hs. revert b. induction Hs as [|c s Hc _ IH]; intros b; simpl;
    [constructor|].
  destruct (is_space c); [destruct b|]; try constructor; auto.
Qed.

Lemma replace1_Forall (P : N → Prop) old new s :
  Forall P new → Forall P s → Forall P (replace1 old new s).
Proof.
  intros Hnew. induction 1 as [|c s Hc _ IH]; [constructor|].
  rewrite replace1_cons. apply Forall_app. split; [|done].
  case_decide; [done|by repeat constructor].
Qed.

Lemma strip_Forall (P : N → Prop) s : Forall P s → Forall P (strip s).
Proof.
  unfold strip. intros H.
  destruct (lstrip_suffix s) as (w & E & _).
  destruct (rstrip_prefix (lstrip s)) as (w' & E' & _).
  rewrite E, E' in H. by apply Forall_app in H as [_ [H _]%Forall_app].
Qed.

Lemma parse_ascii ud nfkc header :
  nfkc_fixes_ascii nfkc → decimal_on_ascii ud →
  Forall (λ c, is_ascii c = true) header →
  parse ud nfkc header = parse ascii_digit id header.
Proof.
  intros Hn Hd Hh.
  assert (E : header_norm ud nfkc header = header_norm ascii_digit id header).
  { rewrite !header_norm_squeeze, Hn by done. done. }
  unfold parse. rewrite E.
  rewrite (re_match_agree ud ascii_digit); [done|].
  rewrite header_norm_squeeze. unfold agree_on.
  apply strip_Forall, squeeze_Forall; [by apply Hd|].
  apply replace1_Forall; [repeat constructor; by apply Hd|].
  eapply Forall_impl; [done|]. intros c Hc. by apply Hd.
Qed.

(** ** Properties of the specification *)

Section Properties.
Variable uni_decimal : char → bool.
Variable nfkc : str → str.

Local Abbreviation header_norm := (header_norm uni_decimal nfkc).
Local Abbreviation parse := (parse uni_decimal nfkc).
Local Abbreviation scan_header := (scan_header uni_decimal nfkc).
Local Abbreviation scan_paras := (scan_paras uni_decimal nfkc).
Local Abbreviation re_match := (re_match uni_decimal).
Local Abbreviation code_text := (code_text uni_decimal).

(** C1.  Whenever the header pattern matches a normalized header, and
    for every header whose normal form reads code, space, non-empty
    title, optional white space and a parenthesis group, the record added
    has as its code the text of the code group with the spaces taken out,
    which is the words of the subject, however many, written together,
    then the digits and the optional letter. *)
Theorem C1_code_is_code_text_without_spaces :
  decimal_not_space uni_decimal → decimal_not_upper uni_decimal →
  (∀ header m,
     re_match header_pattern (header_norm header) = Some m →
     ∃ words digits suffix r,
       code_text words digits suffix ∧
       group m "code" = Some (join [ch_space] words ++ ch_space :: digits ++ suffix) ∧
       (∀ courses, scan_header courses header = Ok (courses ++ [r])) ∧
       code r = replace1 ch_space []
                  (join [ch_space] words ++ ch_space :: digits ++ suffix) ∧
       code r = concat words ++ digits ++ suffix)
  ∧
  (∀ header words digits suffix ttl gap z,
     code_text words digits suffix →
     header_norm header =
       (join [ch_space] words ++ ch_space :: digits ++ suffix)
       ++ ch_space :: ttl ++ gap ++ ch_lparen :: z →
     ttl ≠ [] → Forall (λ x, is_space x = true) gap → ch_rparen ∈ z →
     ∃ m r,
       re_match header_pattern (header_norm header) = Some m ∧
       group m "code" = Some (join [ch_space] words ++ ch_space :: digits ++ suffix) ∧
       (∀ courses, scan_header courses header = Ok (courses ++ [r])) ∧
       code r = replace1 ch_space []
                  (join [ch_space] words ++ ch_space :: digits ++ suffix) ∧
       code r = concat words ++ digits ++ suffix).
Proof.
  intros Hspace Hupper. split.
  - intros header m Hm.
    destruct (scan_header_cases uni_decimal nfkc header)
      as [(Hnone & _)|(m' & words & digits & suffix & ttl & gap & cr & after
                       & Hm' & Gcode & _ & Hcode & _ & _ & _ & _ & Hs)];
      [congruence|].
    assert (m' = m) as -> by congruence.
    eexists words, digits, suffix, _. split_and!; [done|done|exact Hs|done|].
    by apply (code_clean_concat uni_decimal).
  - intros header words digits suffix ttl gap z Hcode Es Httl Hgap Hz.
    destruct (parse_structural uni_decimal nfkc Hspace Hupper
                header words digits suffix ttl gap z Hcode Es Httl Hgap Hz)
      as (m & ttl' & gap' & cr' & after' & Hm & Gcode & _ & _ & _ & _ & _ & Hs).
    eexists m, _. split_and!; [done|done|exact Hs|done|].
    by apply (code_clean_concat uni_decimal).
Qed.

(** C2.  The three example headers of the specification parse to the
    records it states. *)
Theorem C2_spec_examples :
  nfkc_fixes_ascii nfkc → decimal_on_ascii uni_decimal →
  parse (lit "ANTH 100 Introduction to Anthropology (5) SSc") =
    Ok (Some {| code := lit "ANTH100";
                title := Some (lit "Introduction to Anthropology");
                credits := Some (lit "5") |}) ∧
  parse (lit "L ARCH 300 Advanced Landscape Topics (5) I&S") =
    Ok (Some {| code := lit "LARCH300";
                title := Some (lit "Advanced Landscape Topics");
                credits := Some (lit "5") |}) ∧
  parse (lit "B E 200 Built Environment Foundations (5)") =
    Ok (Some {| code := lit "BE200";
                title := Some (lit "Built Environment Foundations");
                credits := Some (lit "5") |}).
Proof.
  intros Hn Hd.
  split_and!; (rewrite parse_ascii; [by vm_compute|done|done|];
               apply forallb_Forall; by vm_compute).
Qed.

(** C3.  The credits field is the text between the ['('] that follows
    the title and the first [')'] behind it, as it stands in the
    normalized header, be it empty or not a number: every parsed record
    arises so, and every header whose normal form has that shape yields
    that title and those credits. *)
Theorem C3_credits_verbatim :
  decimal_not_space uni_decimal → decimal_not_upper uni_decimal →
  (∀ header r,
     parse header = Ok (Some r) →
     ∃ code_txt ttl gap cr after,
       header_norm header =
         code_txt ++ ch_space :: ttl ++ gap ++ ch_lparen :: cr
         ++ ch_rparen :: after ∧
       code r = replace1 ch_space [] code_txt ∧
       title r = Some ttl ∧ title_ok ttl ∧
       (gap = [] ∨ gap = [ch_space]) ∧
       credits r = Some cr ∧ ch_rparen ∉ cr)
  ∧
  (∀ header words digits suffix ttl gap cr after,
     code_text words digits suffix → title_ok ttl →
     Forall (λ x, is_space x = true) gap → ch_rparen ∉ cr →
     header_norm header =
       (join [ch_space] words ++ ch_space :: digits ++ suffix)
       ++ ch_space :: ttl ++ gap ++ ch_lparen :: cr ++ ch_rparen :: after →
     parse header =
       Ok (Some {| code := concat words ++ digits ++ suffix;
                   title := Some ttl; credits := Some cr |})).
Proof.
  intros Hspace Hupper. split.
  - intros header r Hr.
    destruct (scan_header_cases uni_decimal nfkc header)
      as [(_ & Hnone & _)|(m & words & digits & suffix & ttl & gap & cr & after
                           & _ & _ & Es & _ & Httl & Hgap & Hcr & Hp & _)];
      [congruence|].
    simpl in Hp. rewrite Hp in Hr. injection Hr as <-.
    eexists _, ttl, gap, cr, after. split_and!; done.
  - intros header words digits suffix ttl gap cr after Hcode Httl Hgap Hcr Es.
    by eapply parse_structural_full.
Qed.

(** A header that brings no parenthesis group out of NFKC is passed
    over. *)
Lemma scan_header_no_paren courses header :
  has_paren_group (nfkc header) = false →
  parse header = Ok None ∧ scan_header courses header = Ok courses.
Proof.
  intros Hno.
  destruct (scan_header_cases uni_decimal nfkc header)
    as [(_ & Hp & Hs)|(m & words & digits & suffix & ttl & gap & cr & after
                       & _ & _ & Es & _)]; [done|].
  rewrite <- (has_paren_group_header_norm uni_decimal), Es in Hno.
  set (C := join [ch_space] words ++ ch_space :: digits ++ suffix) in *.
  pose proof (has_paren_group_intro (C ++ ch_space :: ttl ++ gap) cr after)
    as Hyes.
  rewrite <- app_assoc, <- app_comm_cons, <- app_assoc in Hyes. congruence.
Qed.

(** C4.  A header in which no ['('] stands before a [')'] adds no record
    and raises nothing, the list of courses being returned as it was:
    so for every header read through NFKC, which can bring parentheses
    out of compatibility characters, and so for every ASCII header as
    it stands. *)
Theorem C4_no_paren_group_no_record :
  (∀ courses header,
     has_paren_group (nfkc header) = false →
     parse header = Ok None ∧ scan_header courses header = Ok courses)
  ∧
  (nfkc_fixes_ascii nfkc →
   ∀ courses header,
     Forall (λ c, is_ascii c = true) header →
     has_paren_group header = false →
     parse header = Ok None ∧ scan_header courses header = Ok courses).
Proof.
  split.
  - intros courses header. apply scan_header_no_paren.
  - intros Hn courses header Hascii Hno.
    apply scan_header_no_paren. by rewrite Hn.
Qed.

(** C5.  Two raw headers of which one has non-empty runs of white space
    (a non-breaking space is one) where the other has single spaces have
    the same normal form, and so match, or fail to match, alike. *)
Theorem C5_respaced_headers_normalize_alike :
  nfkc_splits_at_space nfkc → nfkc_keeps_space nfkc →
  ∀ h h',
    respaced h h' →
    header_norm h = header_norm h' ∧
    re_match header_pattern (header_norm h) =
      re_match header_pattern (header_norm h') ∧
    parse h = parse h'.
Proof.
  intros Hsplit Hkeep h h' H.
  pose proof (respaced_header_norm uni_decimal nfkc Hsplit Hkeep h h' H) as E.
  unfold parse. by rewrite E.
Qed.

(** C9.  Every record collected from a page has a code made of one or
    more letters A-Z, then one or more decimal digits, then at most one
    letter A-Z, with no white space in it. *)
Theorem C9_code_shape :
  decimal_not_space uni_decimal →
  ∀ ps, ∃ courses,
    scan_paras [] ps = Ok courses ∧
    Forall (λ r, code_ok uni_decimal (code r)) courses.
Proof.
  intros Hspace ps. apply scan_paras_inv; [|constructor].
  intros header r Hr.
  destruct (scan_header_cases uni_decimal nfkc header)
    as [(_ & Hnone & _)|(m & words & digits & suffix & ttl & gap & cr & after
                         & _ & _ & _ & Hcode & _ & _ & _ & Hp & _)];
    [congruence|].
  simpl in Hp. rewrite Hp in Hr. injection Hr as <-. simpl.
  rewrite (code_clean_concat uni_decimal) by done.
  destruct Hcode as (Hne & Hwords & Hd & Udigits & Usuffix & Hlen).
  assert (Uletters : Forall (λ x, is_upper_AZ x = true) (concat words)).
  { apply Forall_concat. eapply Forall_impl; [done|]. by intros w [_ ?]. }
  exists (concat words), digits, suffix. split_and!; try done.
  - destruct Hwords as [|w words [Hw _] _]; [done|]. by destruct w.
  - rewrite !Forall_app. split_and!.
    + eapply Forall_impl; [done|]. apply upper_not_space.
    + eapply Forall_impl; [done|]. apply Hspace.
    + eapply Forall_impl; [done|]. apply upper_not_space.
Qed.

(** C10.  Every record collected from a page has a title that is not
    empty and neither starts nor ends with white space, and credits
    without a [')']. *)
Theorem C10_title_and_credits_shape :
  ∀ ps, ∃ courses, scan_paras [] ps = Ok courses ∧ Forall fields_ok courses.
Proof.
  intros ps. apply scan_paras_inv; [|constructor].
  intros header r Hr.
  destruct (scan_header_cases uni_decimal nfkc header)
    as [(_ & Hnone & _)|(m & words & digits & suffix & ttl & gap & cr & after
                         & _ & _ & _ & _ & (Hne & Hhead & Hlast & _) & _ & Hcr
                         & Hp & _)];
    [congruence|].
  simpl in Hp. rewrite Hp in Hr. injection Hr as <-.
  exists ttl, cr. done.
Qed.
End Properties.

Section PipelineProperties.
Variable uni_decimal : char → bool.
Variable nfkc : str → str.
Variable fetch : list event → str → outcome html.
Variable execute : list event → str → list course → outcome response.
Variable create_client : str → str → outcome unit.

Local Abbreviation scan_paras := (scan_paras uni_decimal nfkc).
Local Abbreviation scrape_department :=
  (scrape_department uni_decimal nfkc fetch execute).
Local Abbreviation scrape_departments :=
  (scrape_departments uni_decimal nfkc fetch execute).
Local Abbreviation main := (main uni_decimal nfkc fetch execute create_client).

(** C6.  A link whose href contains "glossary" or a ["/"] adds no
    department, and every department found comes from a link of the
    page whose href, the abbreviation with ".html" behind it, contains
    neither. *)
Theorem C6_departments_exclude_glossary_and_paths :
  (∀ departments a h,
     href a = Some h →
     contains (lit "glossary") h = true ∨ contains [ch_slash] h = true →
     add_department departments a = departments)
  ∧
  (∀ links d,
     d ∈ discover links →
     ∃ a h, a ∈ links ∧ href a = Some h ∧
            d = (take (length h - 5) h, strip (atext a), base_url ++ h) ∧
            h = d.1.1 ++ lit ".html" ∧
            contains (lit "glossary") h = false ∧
            contains [ch_slash] h = false).
Proof.
  split.
  - intros departments a h Hh Hbad. unfold add_department. rewrite Hh.
    assert (is_department_link (Some h) = false) as ->; [|done].
    apply not_true_is_false. unfold is_department_link.
    rewrite !andb_true_iff, !negb_true_iff.
    intros ((((_ & _) & Hg) & Hs) & _). destruct Hbad; congruence.
  - intros links d [Hd|(a & h & Ha & Hh & Hlink & ->)]%discover_from;
      [by apply elem_of_nil in Hd|].
    apply department_link_inv in Hlink as (Eh & Hg & Hs & _).
    exists a, h. split_and!; done.
Qed.

(** C7, as amended.  With either configuration value absent from the
    environment or empty, the script raises its ValueError before doing
    anything else; with both present and not empty the check of the
    configuration raises nothing and the script goes on: it creates
    the client and, unless that call raises, requests the index page
    as the first thing it does to the outside. *)
Theorem C7_startup_needs_nonempty_config :
  ∀ environ log,
    (environ !! "SUPABASE_URL" = None ∨ environ !! "SUPABASE_URL" = Some [] ∨
     environ !! "SUPABASE_KEY" = None ∨ environ !! "SUPABASE_KEY" = Some [] →
     startup environ = Raise config_error ∧
     main environ log = (Raise config_error, log))
    ∧
    (∀ url key,
       environ !! "SUPABASE_URL" = Some url →
       environ !! "SUPABASE_KEY" = Some key →
       url ≠ [] → key ≠ [] →
       startup environ = Ok (url, key) ∧
       match create_client url key with
       | Ok _ =>
           ∃ outcome more,
             main environ log = (outcome, log ++ Got base_url :: more)
       | Raise e => main environ log = (Raise e, log)
       end).
Proof.
  intros environ log.
  pose proof (main_cases uni_decimal nfkc fetch execute create_client
                environ log) as Hmain.
  split.
  - intros Hbad.
    assert (E : startup environ = Raise config_error).
    { unfold startup.
      destruct Hbad as [-> |[-> |[-> | ->]]]; simpl; by rewrite ?orb_true_r. }
    rewrite E in Hmain. done.
  - intros url key Hurl Hkey Hu Hk.
    assert (E : startup environ = Ok (url, key)).
    { unfold startup. rewrite Hurl, Hkey. by destruct url, key. }
    rewrite E in Hmain. done.
Qed.

(** C8, as amended.  A department whose batch insert returns a
    response with an error that counts as true logs the insert once,
    prints the error, sleeps and ends normally; whenever the insert
    call returns, whatever the response reports, the department ends
    normally and the loop goes on with the departments that remain.
    What the insert call itself raises is not caught: it ends the
    loop there, with nothing printed of it. *)
Theorem C8_insert_error_printed_and_passed_over :
  ∀ dep_abbrev dep_name dep_url deps log dep_page,
    fetch (log ++ [Printed (lit "Scraping " ++ dep_name ++ lit "...")]) dep_url
      = Ok dep_page →
    ∃ courses,
      scan_paras [] (paras dep_page) = Ok courses ∧
      (∀ response e,
         courses ≠ [] →
         execute (log ++ [Printed (lit "Scraping " ++ dep_name ++ lit "...");
                          Got dep_url])
                 (lit "uw_courses") courses = Ok response →
         error response = Some e →
         truth e = true →
         scrape_department (dep_abbrev, dep_name, dep_url) log =
           (Ok (),
            log ++ [Printed (lit "Scraping " ++ dep_name ++ lit "...");
                    Got dep_url;
                    Inserted (lit "uw_courses") courses;
                    Printed (lit "Error inserting courses for " ++ dep_name
                             ++ lit ": " ++ shown e);
                    Slept])) ∧
      (∀ response,
         execute (log ++ [Printed (lit "Scraping " ++ dep_name ++ lit "...");
                          Got dep_url])
                 (lit "uw_courses") courses = Ok response →
         fst (scrape_department (dep_abbrev, dep_name, dep_url) log) = Ok () ∧
         scrape_departments ((dep_abbrev, dep_name, dep_url) :: deps) log =
           scrape_departments deps
             (snd (scrape_department (dep_abbrev, dep_name, dep_url) log))) ∧
      (∀ e,
         courses ≠ [] →
         execute (log ++ [Printed (lit "Scraping " ++ dep_name ++ lit "...");
                          Got dep_url])
                 (lit "uw_courses") courses = Raise e →
         scrape_departments ((dep_abbrev, dep_name, dep_url) :: deps) log =
           (Raise e,
            log ++ [Printed (lit "Scraping " ++ dep_name ++ lit "...");
                    Got dep_url;
                    Inserted (lit "uw_courses") courses])).
Proof.
  intros dep_abbrev dep_name dep_url deps log dep_page Hpage.
  pose proof (scrape_department_cases uni_decimal nfkc fetch execute
                dep_abbrev dep_name dep_url log) as Hd.
  rewrite Hpage in Hd. destruct Hd as (courses & Hc & Hd).
  exists courses. split_and!; [done| | |].
  - intros response e Hne Hex He Ht.
    destruct courses as [|r courses]; [done|].
    rewrite Hd, Hex. unfold reports_error. by rewrite He, Ht.
  - intros response Hex. rewrite scrape_departments_cons, Hd.
    destruct courses as [|r courses]; [done|]. by rewrite Hex.
  - intros e Hne Hex. rewrite scrape_departments_cons, Hd.
    destruct courses as [|r courses]; [done|]. by rewrite Hex.
Qed.
End PipelineProperties.

(** ** The properties at concrete inputs *)

Lemma C7_blank_value_raises :
  is_Some (env_blank_url !! "SUPABASE_URL") ∧
  is_Some (env_blank_url !! "SUPABASE_KEY") ∧
  startup env_blank_url = Raise config_error.
Proof. split_and!; [by eexists|by eexists|done]. Qed.

(** An insert that raises ends the loop at that department: the
    exception is raised on, nothing is printed of it, and the
    department behind is not visited. *)
Lemma C8_raising_insert_ends_run :
  scrape_departments decimal_sample nfkc_spaces fetch_anth execute_raising
    [dep_anth; dep_arch] [] =
  (Raise (LibraryError (lit "APIError") (lit "duplicate key")),
   [Printed (lit "Scraping Anthropology (ANTH)...");
    Got (lit "https://www.washington.edu/students/crscat/anth.html");
    Inserted (lit "uw_courses")
      [{| code := lit "ANTH100";
          title := Some (lit "Introduction to Anthropology");
          credits := Some (lit "5") |}]]).
Proof. by vm_compute. Qed.

Lemma absent_check (c : N) s :
  forallb (λ x, negb (x =? c)%N) s = true → c ∉ s.
Proof.
  intros H%forallb_Forall Hin. rewrite Forall_forall in H.
  specialize (H _ Hin). by rewrite N.eqb_refl in H.
Qed.


Lemma C1_witness_two_word_subject :
  ∃ m r,
    re_match decimal_sample header_pattern
      (header_norm decimal_sample nfkc_spaces
         (lit "L ARCH 300 Advanced Landscape Topics (5) I&S")) = Some m ∧
    group m "code" =
      Some (join [ch_space] [lit "L"; lit "ARCH"] ++ ch_space :: lit "300" ++ []) ∧
    (∀ courses,
       scan_header decimal_sample nfkc_spaces courses
         (lit "L ARCH 300 Advanced Landscape Topics (5) I&S")
       = Ok (courses ++ [r])) ∧
    code r = replace1 ch_space []
               (join [ch_space] [lit "L"; lit "ARCH"] ++ ch_space :: lit "300" ++ []) ∧
    code r = concat [lit "L"; lit "ARCH"] ++ lit "300" ++ [].
Proof.
  apply (proj2 (C1_code_is_code_text_without_spaces decimal_sample nfkc_spaces
                  decimal_sample_not_space decimal_sample_not_upper)
           (lit "L ARCH 300 Advanced Landscape Topics (5) I&S")
           [lit "L"; lit "ARCH"] (lit "300") []
           (lit "Advanced Landscape Topics") [ch_space] (lit "5) I&S")).
  - concrete.
  - by vm_compute.
  - done.
  - concrete.
  - by apply (list_elem_of_lookup_2 _ 1).
Defined.

Lemma C2_witness_examples :
  parse decimal_sample nfkc_spaces
    (lit "ANTH 100 Introduction to Anthropology (5) SSc") =
    Ok (Some {| code := lit "ANTH100";
                title := Some (lit "Introduction to Anthropology");
                credits := Some (lit "5") |}) ∧
  parse decimal_sample nfkc_spaces
    (lit "L ARCH 300 Advanced Landscape Topics (5) I&S") =
    Ok (Some {| code := lit "LARCH300";
                title := Some (lit "Advanced Landscape Topics");
                credits := Some (lit "5") |}) ∧
  parse decimal_sample nfkc_spaces
    (lit "B E 200 Built Environment Foundations (5)") =
    Ok (Some {| code := lit "BE200";
                title := Some (lit "Built Environment Foundations");
                credits := Some (lit "5") |}).
Proof.
  exact (C2_spec_examples decimal_sample nfkc_spaces
           nfkc_spaces_fixes_ascii decimal_sample_on_ascii).
Defined.

Lemma C3_witness_empty_and_range_credits :
  parse decimal_sample nfkc_spaces (lit "ANTH 499 Undergraduate Research ()") =
    Ok (Some {| code := concat [lit "ANTH"] ++ lit "499" ++ [];
                title := Some (lit "Undergraduate Research");
                credits := Some [] |})
  ∧
  parse decimal_sample nfkc_spaces
    (lit "ANTH 499 Undergraduate Research (1-5, max. 15) NW") =
    Ok (Some {| code := concat [lit "ANTH"] ++ lit "499" ++ [];
                title := Some (lit "Undergraduate Research");
                credits := Some (lit "1-5, max. 15") |}).
Proof.
  split.
  - apply (proj2 (C3_credits_verbatim decimal_sample nfkc_spaces
                    decimal_sample_not_space decimal_sample_not_upper)
             (lit "ANTH 499 Undergraduate Research ()")
             [lit "ANTH"] (lit "499") [] (lit "Undergraduate Research")
             [ch_space] [] []).
    + concrete.
    + unfold title_ok. split_and!; [done|by intros x [= <-]|by intros x [= <-]|].
      by apply absent_check.
    + concrete.
    + by intros ?%elem_of_nil.
    + by vm_compute.
  - apply (proj2 (C3_credits_verbatim decimal_sample nfkc_spaces
                    decimal_sample_not_space decimal_sample_not_upper)
             (lit "ANTH 499 Undergraduate Research (1-5, max. 15) NW")
             [lit "ANTH"] (lit "499") [] (lit "Undergraduate Research")
             [ch_space] (lit "1-5, max. 15") (lit " NW")).
    + concrete.
    + unfold title_ok. split_and!; [done|by intros x [= <-]|by intros x [= <-]|].
      by apply absent_check.
    + concrete.
    + by apply absent_check.
    + by vm_compute.
Defined.

Lemma C4_witness_prerequisite_line :
  parse decimal_sample nfkc_spaces (lit "Prerequisite: ANTH 100.") = Ok None ∧
  scan_header decimal_sample nfkc_spaces [] (lit "Prerequisite: ANTH 100.") = Ok [].
Proof.
  apply (proj2 (C4_no_paren_group_no_record decimal_sample nfkc_spaces)
           nfkc_spaces_fixes_ascii [] (lit "Prerequisite: ANTH 100.")).
  - apply forallb_Forall. by vm_compute.
  - by vm_compute.
Defined.

Lemma C5_witness_nbsp_and_tab :
  header_norm decimal_sample nfkc_spaces
    (lit "ANTH" ++ ch_space :: lit "100" ++ ch_space :: lit "Intro (5)") =
  header_norm decimal_sample nfkc_spaces
    (lit "ANTH" ++ [ch_nbsp] ++ lit "100" ++ [ch_space; ch_tab; ch_space]
     ++ lit "Intro (5)") ∧
  re_match decimal_sample header_pattern
    (header_norm decimal_sample nfkc_spaces
       (lit "ANTH" ++ ch_space :: lit "100" ++ ch_space :: lit "Intro (5)")) =
  re_match decimal_sample header_pattern
    (header_norm decimal_sample nfkc_spaces
       (lit "ANTH" ++ [ch_nbsp] ++ lit "100" ++ [ch_space; ch_tab; ch_space]
        ++ lit "Intro (5)")) ∧
  parse decimal_sample nfkc_spaces
    (lit "ANTH" ++ ch_space :: lit "100" ++ ch_space :: lit "Intro (5)") =
  parse decimal_sample nfkc_spaces
    (lit "ANTH" ++ [ch_nbsp] ++ lit "100" ++ [ch_space; ch_tab; ch_space]
     ++ lit "Intro (5)").
Proof.
  apply (C5_respaced_headers_normalize_alike decimal_sample nfkc_spaces
           nfkc_spaces_splits nfkc_spaces_keeps_space).
  apply respaced_at; [apply respaced_same| |done|concrete].
  apply respaced_at; [apply respaced_same|apply respaced_same|done|concrete].
Defined.

Lemma C6_witness_index_links :
  ∃ a h, a ∈ links_sample ∧ href a = Some h ∧
         dep_anth = (take (length h - 5) h, strip (atext a), base_url ++ h) ∧
         h = dep_anth.1.1 ++ lit ".html" ∧
         contains (lit "glossary") h = false ∧
         contains [ch_slash] h = false.
Proof.
  apply (proj2 C6_departments_exclude_glossary_and_paths links_sample dep_anth).
  replace (discover links_sample) with [dep_anth] by by vm_compute.
  by apply list_elem_of_here.
Defined.

Lemma C7_witness_full_config :
  startup env_full =
    Ok (lit "https://example.supabase.co", lit "service-role-key") ∧
  ∃ outcome more,
    main decimal_sample nfkc_spaces fetch_anth execute_failing create_client_ok
      env_full [] = (outcome, [] ++ Got base_url :: more).
Proof.
  apply (proj2 (C7_startup_needs_nonempty_config decimal_sample nfkc_spaces
                  fetch_anth execute_failing create_client_ok env_full []));
    done.
Defined.

Lemma C8_witness_failing_store :
  scrape_department decimal_sample nfkc_spaces fetch_anth execute_failing
    dep_anth [] =
  (Ok (),
   [Printed (lit "Scraping Anthropology (ANTH)...");
    Got (lit "https://www.washington.edu/students/crscat/anth.html");
    Inserted (lit "uw_courses")
      [{| code := lit "ANTH100";
          title := Some (lit "Introduction to Anthropology");
          credits := Some (lit "5") |}];
    Printed (lit "Error inserting courses for Anthropology (ANTH): duplicate key");
    Slept]).
Proof.
  destruct (C8_insert_error_printed_and_passed_over decimal_sample nfkc_spaces
              fetch_anth execute_failing
              (lit "anth") (lit "Anthropology (ANTH)")
              (base_url ++ lit "anth.html") [] [] page_anth eq_refl)
    as (courses & Hc & Herr & _).
  vm_compute in Hc. injection Hc as <-.
  exact (Herr (Response (Some (PyVal true (lit "duplicate key"))))
              (PyVal true (lit "duplicate key"))
              ltac:(done) eq_refl eq_refl eq_refl).
Defined.

Lemma C9_witness_page :
  ∃ courses,
    scan_paras decimal_sample nfkc_spaces []
      [Para true (lit "B E 200 Built Environment Foundations (5)");
       Para false (lit "not a course entry");
       Para true (lit "Prerequisite: ANTH 100.")] = Ok courses ∧
    Forall (λ r, code_ok decimal_sample (code r)) courses.
Proof.
  exact (C9_code_shape decimal_sample nfkc_spaces decimal_sample_not_space _).
Defined.

(** ** Further properties of the normalization *)

Lemma lstrip_head s x : head (lstrip s) = Some x → is_space x = false.
Proof.
  induction s as [|c s IH]; simpl; [done|].
  destruct (is_space c) eqn:Hc; [done|]. simpl. by intros [= <-].
Qed.

Lemma lstrip_id s :
  (∀ x, head s = Some x → is_space x = false) → lstrip s = s.
Proof. destruct s as [|c s]; simpl; [done|]. intros H. by rewrite (H c). Qed.

Lemma rstrip_last s x : last (rstrip s) = Some x → is_space x = false.
Proof. unfold rstrip. rewrite last_reverse. apply lstrip_head. Qed.

Lemma rstrip_id s :
  (∀ x, last s = Some x → is_space x = false) → rstrip s = s.
Proof.
  intros H. unfold rstrip. rewrite lstrip_id, reverse_involutive; [done|].
  intros x. rewrite head_reverse. apply H.
Qed.

Lemma rstrip_head s x : head (rstrip s) = Some x → head s = Some x.
Proof.
  destruct (rstrip_prefix s) as (w & E & _). intros H. rewrite E.
  destruct (rstrip s); [done|]. done.
Qed.

Lemma strip_head s x : head (strip s) = Some x → is_space x = false.
Proof. unfold strip. intros H%rstrip_head. by eapply lstrip_head. Qed.

Lemma strip_last s x : last (strip s) = Some x → is_space x = false.
Proof. unfold strip. apply rstrip_last. Qed.

Lemma strip_id s :
  (∀ x, head s = Some x → is_space x = false) →
  (∀ x, last s = Some x → is_space x = false) →
  strip s = s.
Proof. intros Hh Hl. unfold strip. by rewrite lstrip_id, rstrip_id. Qed.

Lemma squeeze_tidy b s : tidy b s → squeeze b s = s.
Proof.
  revert b. induction s as [|c s IH]; intros b; simpl; [done|].
  intros [Hc Hs]. destruct (is_space c) eqn:Ec.
  - destruct (Hc eq_refl) as [-> ->]. by rewrite IH.
  - by rewrite IH.
Qed.

Lemma squeeze_replace_nbsp b s :
  squeeze b (replace1 ch_nbsp [ch_space] s) = squeeze b s.
Proof.
  revert b. induction s as [|c s IH]; intros b; [done|].
  rewrite replace1_cons. case_decide as Hc.
  - subst c. simpl. destruct b; by rewrite IH.
  - simpl. destruct (is_space c); [destruct b|]; by rewrite IH.
Qed.

Lemma filter_spaces_l (w s : list N) :
  Forall (λ c, is_space c = true) w →
  filter (λ c, is_space c = false) (w ++ s) = filter (λ c, is_space c = false) s.
Proof.
  induction 1 as [|c w Hc _ IH]; [done|]. simpl.
  rewrite filter_cons_False; [done|congruence].
Qed.

Lemma filter_spaces_r (s w : list N) :
  Forall (λ c, is_space c = true) w →
  filter (λ c, is_space c = false) (s ++ w) = filter (λ c, is_space c = false) s.
Proof.
  intros Hw. rewrite filter_app.
  rewrite <- (app_nil_r w), filter_spaces_l by done. by rewrite app_nil_r.
Qed.

Lemma filter_squeeze b s :
  filter (λ c, is_space c = false) (squeeze b s) =
  filter (λ c, is_space c = false) s.
Proof.
  revert b. induction s as [|c s IH]; intros b; simpl; [done|].
  destruct (is_space c) eqn:Hc.
  - rewrite (filter_cons_False _ c) by congruence.
    destruct b; [done|]. by rewrite filter_cons_False.
  - by rewrite !filter_cons_True, IH.
Qed.

Lemma filter_replace_nbsp s :
  filter (λ c, is_space c = false) (replace1 ch_nbsp [ch_space] s) =
  filter (λ c, is_space c = false) s.
Proof.
  induction s as [|c s IH]; [done|].
  rewrite replace1_cons. case_decide as Hc.
  - subst c. simpl. by rewrite !filter_cons_False.
  - simpl. destruct (is_space c) eqn:Ec.
    + by rewrite !filter_cons_False by congruence.
    + by rewrite !filter_cons_True, IH.
Qed.

Lemma filter_strip s :
  filter (λ c, is_space c = false) (strip s) =
  filter (λ c, is_space c = false) s.
Proof.
  unfold strip.
  destruct (lstrip_suffix s) as (w & E & Hw).
  destruct (rstrip_prefix (lstrip s)) as (w' & E' & Hw').
  rewrite E at 2. rewrite filter_spaces_l by done.
  rewrite E' at 2. by rewrite filter_spaces_r.
Qed.

Section NormalForm.
Variable uni_decimal : char → bool.
Variable nfkc : str → str.

Local Abbreviation header_norm := (header_norm uni_decimal nfkc).
Local Abbreviation parse := (parse uni_decimal nfkc).

(** X1.  In a normalized header every white-space character is a
    U+0020, no two of them are adjacent, and none stands at either
    end. *)
Theorem X1_header_norm_single_spaced :
  ∀ header,
    Forall (λ c, is_space c = true → c = ch_space) (header_norm header) ∧
    (∀ a x y b,
       header_norm header = a ++ x :: y :: b →
       is_space x = true → is_space y = true → False) ∧
    (∀ x, head (header_norm header) = Some x → is_space x = false) ∧
    (∀ x, last (header_norm header) = Some x → is_space x = false).
Proof.
  intros header. pose proof (tidy_header_norm uni_decimal nfkc header) as T.
  split_and!.
  - apply Forall_forall. intros c Hc Hs. by eapply tidy_plain.
  - intros a x y b E. rewrite E in T. by eapply tidy_adjacent.
  - intros x. rewrite header_norm_squeeze. apply strip_head.
  - intros x. rewrite header_norm_squeeze. apply strip_last.
Qed.

(** X2.  The normalization touches white space only: the characters of
    the NFKC form that are not white space are all kept, in their
    order, and none is added. *)
Theorem X2_header_norm_keeps_text :
  ∀ header,
    filter (λ c, is_space c = false) (header_norm header) =
    filter (λ c, is_space c = false) (nfkc header).
Proof.
  intros header. rewrite header_norm_squeeze.
  by rewrite filter_strip, filter_squeeze, filter_replace_nbsp.
Qed.

(** X3.  Replacing the non-breaking spaces before collapsing the white
    space changes nothing, the pattern of the collapse taking them as
    white space already: a normalized header is the NFKC form with
    each run of white space made one U+0020, stripped. *)
Theorem X3_nbsp_replace_redundant :
  ∀ header,
    header_norm header =
      strip (re_sub uni_decimal (plus space) [ch_space] (nfkc header)) ∧
    header_norm header = strip (squeeze false (nfkc header)).
Proof.
  intros header. rewrite header_norm_squeeze, re_sub_spaces.
  by rewrite squeeze_replace_nbsp.
Qed.

(** X4.  Normalizing is idempotent where NFKC leaves the normalized
    header as it is, and the parser gives a normalized header the
    result it gave the raw one. *)
Theorem X4_header_norm_idempotent :
  ∀ header,
    nfkc (header_norm header) = header_norm header →
    header_norm (header_norm header) = header_norm header ∧
    parse (header_norm header) = parse header.
Proof.
  intros header Hfix.
  assert (E : header_norm (header_norm header) = header_norm header).
  { rewrite (header_norm_squeeze _ _ (header_norm header)), Hfix.
    pose proof (tidy_header_norm uni_decimal nfkc header) as T.
    rewrite squeeze_replace_nbsp, squeeze_tidy by done.
    apply strip_id; intros x; rewrite header_norm_squeeze;
      [apply strip_head|apply strip_last]. }
  split; [done|]. unfold parse. by rewrite E.
Qed.
End NormalForm.

Lemma X4_witness_nbsp_header :
  header_norm decimal_sample nfkc_spaces
    (header_norm decimal_sample nfkc_spaces
       (lit "  ANTH" ++ [ch_nbsp; ch_tab] ++ lit "100   Intro (5) ")) =
  header_norm decimal_sample nfkc_spaces
    (lit "  ANTH" ++ [ch_nbsp; ch_tab] ++ lit "100   Intro (5) ") ∧
  parse decimal_sample nfkc_spaces
    (header_norm decimal_sample nfkc_spaces
       (lit "  ANTH" ++ [ch_nbsp; ch_tab] ++ lit "100   Intro (5) ")) =
  parse decimal_sample nfkc_spaces
    (lit "  ANTH" ++ [ch_nbsp; ch_tab] ++ lit "100   Intro (5) ").
Proof.
  apply (X4_header_norm_idempotent decimal_sample nfkc_spaces). by vm_compute.
Defined.

(** ** The departments found on the index page *)

Lemma foldl_add_department acc links :
  foldl add_department acc links =
  acc ++ (department_of <$> filter (λ a, is_department_link (href a) = true) links).
Proof.
  revert acc. induction links as [|a links IH]; intros acc; simpl.
  - by rewrite app_nil_r.
  - rewrite IH. unfold add_department.
    destruct (is_department_link (href a)) eqn:Hlink.
    + rewrite filter_cons_True by done. by rewrite <- app_assoc.
    + rewrite filter_cons_False by congruence. done.
Qed.

Lemma contains_char c s : contains [c] s = false ↔ c ∉ s.
Proof.
  rewrite <- not_true_iff_false, contains_spec. split.
  - intros H (a & b & E)%list_elem_of_split. apply H. by exists a, b.
  - intros H (a & b & E). apply H. rewrite E. elem_tac.
Qed.

Lemma department_link_spec h :
  is_department_link (Some h) = true ↔
  ∃ t, h = t ++ lit ".html" ∧ t ≠ [] ∧
       contains (lit "glossary") h = false ∧ ch_slash ∉ h.
Proof.
  split.
  - intros (E & Hg & Hs & Hl)%department_link_inv.
    exists (take (length h - 5) h). split_and!; [done| |done|by apply contains_char].
    intros E'. rewrite E' in E. rewrite E in Hl. simpl in Hl. lia.
  - intros (t & -> & Ht & Hg & Hs). unfold is_department_link.
    rewrite !andb_true_iff, !negb_true_iff, Nat.ltb_lt. split_and!.
    + destruct t; done.
    + apply endswith_spec. by exists t.
    + done.
    + by apply contains_char.
    + rewrite length_app. destruct t; [done|]. simpl. lia.
Qed.

Lemma department_of_link a t :
  href a = Some (t ++ lit ".html") →
  department_of a = (t, strip (atext a), base_url ++ t ++ lit ".html").
Proof.
  intros E. unfold department_of. rewrite E. simpl default.
  rewrite length_app.
  replace (length t + length (lit ".html") - 5) with (length t)
    by (change (length (lit ".html")) with 5; lia).
  by rewrite take_app_length.
Qed.

Lemma elem_of_discover d links :
  d ∈ discover links ↔
  ∃ a t, a ∈ links ∧ href a = Some (t ++ lit ".html") ∧ t ≠ [] ∧
         contains (lit "glossary") (t ++ lit ".html") = false ∧
         (ch_slash ∉ t ++ lit ".html") ∧
         d = (t, strip (atext a), base_url ++ t ++ lit ".html").
Proof.
  unfold discover. rewrite foldl_add_department. simpl.
  rewrite list_elem_of_fmap. setoid_rewrite list_elem_of_filter. split.
  - intros (a & -> & Hlink & Ha).
    destruct (href a) as [h|] eqn:Hh; [|done].
    apply department_link_spec in Hlink as (t & -> & Ht & Hg & Hs).
    exists a, t. split_and!; try done. by apply department_of_link.
  - intros (a & t & Ha & Hh & Ht & Hg & Hs & ->). exists a. split_and!.
    + symmetry. by apply department_of_link.
    + rewrite Hh. apply department_link_spec. by exists t.
    + done.
Qed.

(** X5.  The departments are the qualifying links of the index page,
    one for each, in the order of the page: a link met twice gives two
    departments, and the links of two parts of a page give the
    departments of the first part followed by those of the second. *)
Theorem X5_discover_keeps_page_order :
  ∀ links more,
    discover links =
      department_of <$> filter (λ a, is_department_link (href a) = true) links ∧
    discover (links ++ more) = discover links ++ discover more ∧
    length (discover links) ≤ length links.
Proof.
  intros links more. unfold discover. rewrite !foldl_add_department. simpl.
  split_and!; [done|by rewrite filter_app, fmap_app|].
  rewrite length_fmap. apply length_filter.
Qed.

(** X6.  A triple is among the departments exactly when the page has
    a link whose [href] is a non-empty abbreviation followed by
    [.html], holds neither [glossary] nor a slash, and the triple is
    that abbreviation, the stripped text of the link and the address
    of the catalog followed by the [href]. *)
Theorem X6_department_iff_qualifying_link :
  ∀ links d,
    d ∈ discover links ↔
    ∃ a abbrev,
      a ∈ links ∧ href a = Some (abbrev ++ lit ".html") ∧ abbrev ≠ [] ∧
      (∀ u v, abbrev ++ lit ".html" ≠ u ++ lit "glossary" ++ v) ∧
      (ch_slash ∉ abbrev ++ lit ".html") ∧
      d = (abbrev, strip (atext a), base_url ++ abbrev ++ lit ".html").
Proof.
  intros links d. rewrite elem_of_discover.
  split; intros (a & t & Ha & Hh & Ht & Hg & Hs & Hd); exists a, t;
    split_and!; try done.
  - intros u v E. apply not_true_iff_false in Hg. apply Hg.
    apply contains_spec. by exists u, v.
  - apply not_true_iff_false. intros (u & v & E)%contains_spec. by eapply Hg.
Qed.

(** X7.  Every department found has a non-empty abbreviation without a
    slash, a name without white space at either end, and as address
    that of the catalog followed by the abbreviation and [.html]. *)
Theorem X7_department_fields :
  ∀ links,
    Forall (λ d : department,
              d.1.1 ≠ [] ∧ (ch_slash ∉ d.1.1) ∧
              strip d.1.2 = d.1.2 ∧
              d.2 = base_url ++ d.1.1 ++ lit ".html")
           (discover links).
Proof.
  intros links. apply Forall_forall. intros d.
  intros (a & t & Ha & Hh & Ht & Hg & Hs & ->)%elem_of_discover. simpl.
  split_and!; [done| |apply strip_id; intros x; [apply strip_head|apply strip_last]|done].
  intros Hin. apply Hs. elem_tac.
Qed.

(** ** Which headers give a record *)

Lemma join_head_upper words :
  words ≠ [] → Forall word_ok words →
  ∀ x, ∃ c, head (join [ch_space] words ++ x) = Some c ∧ is_upper_AZ c = true.
Proof.
  intros Hne Hwords x. destruct words as [|w words]; [done|].
  apply Forall_cons in Hwords as [[Hw Uw] _].
  rewrite join_words, <- app_assoc.
  destruct w as [|c w]; [done|]. apply Forall_cons in Uw as [Hc _].
  by exists c.
Qed.

Section Records.
Variable uni_decimal : char → bool.
Variable nfkc : str → str.

Local Abbreviation header_norm := (header_norm uni_decimal nfkc).
Local Abbreviation parse := (parse uni_decimal nfkc).
Local Abbreviation scan_header := (scan_header uni_decimal nfkc).
Local Abbreviation code_text := (code_text uni_decimal).

(** X8.  A header gives a record exactly when its normalized form
    reads: a code text, one space, a non-empty text, ['('] and a rest
    that holds a [')'].  No header makes the parser raise. *)
Theorem X8_record_iff_shape :
  ∀ header,
    ((∃ r, parse header = Ok (Some r)) ↔
     ∃ words digits suffix ttl z,
       code_text words digits suffix ∧ ttl ≠ [] ∧ ch_rparen ∈ z ∧
       header_norm header =
         (join [ch_space] words ++ ch_space :: digits ++ suffix)
         ++ ch_space :: ttl ++ ch_lparen :: z) ∧
    (∀ e, parse header ≠ Raise e).
Proof.
  intros header.
  destruct (scan_header_cases uni_decimal nfkc header)
    as [(Hnone & Hp & _)|(m & words & digits & suffix & ttl & gap & cr & after
                          & Hm & _ & Es & Hcode & Httl & Hgap & Hcr & Hp & _)].
  - split; [|by rewrite Hp]. split; [intros [r Hr]; congruence|].
    intros (words & digits & suffix & ttl & z & Hcode & Httl & Hz & Es).
    destruct (header_complete uni_decimal _ words digits suffix ttl [] z
                (tidy_header_norm _ _ header) Hcode Es Httl ltac:(done) Hz)
      as [m Hm]. congruence.
  - simpl in Hp. split; [|by rewrite Hp]. split; [|by eauto].
    intros _. exists words, digits, suffix, (ttl ++ gap), (cr ++ ch_rparen :: after).
    split_and!; [done| |elem_tac|by rewrite Es, <- !app_assoc].
    destruct Httl as [Hne _]. by destruct ttl.
Qed.

(** X9.  A header whose normalized form does not begin with a letter
    A-Z, or holds no decimal digit, gives no record and leaves the list
    of courses as it is. *)
Theorem X9_no_capital_or_no_number_skipped :
  ∀ header,
    (∀ c, head (header_norm header) = Some c → is_upper_AZ c = false) ∨
    (∀ c, c ∈ header_norm header → uni_decimal c = false) →
    parse header = Ok None ∧
    ∀ courses, scan_header courses header = Ok courses.
Proof.
  intros header H.
  destruct (scan_header_cases uni_decimal nfkc header)
    as [(_ & Hp & Hs)|(m & words & digits & suffix & ttl & gap & cr & after
                       & _ & _ & Es & Hcode & _)]; [done|].
  exfalso. destruct Hcode as (Hne & Hwords & Hd & Udigits & _).
  destruct H as [H|H].
  - rewrite <- app_assoc in Es.
    destruct (join_head_upper words Hne Hwords
      ((ch_space :: digits ++ suffix) ++ ch_space :: ttl ++ gap
         ++ ch_lparen :: cr ++ ch_rparen :: after)) as (c & Hc & Uc).
    rewrite <- Es in Hc. apply H in Hc. congruence.
  - destruct digits as [|d digits]; [done|].
    apply Forall_cons in Udigits as [Ud _].
    rewrite (H d) in Ud; [done|]. rewrite Es. elem_tac.
Qed.

Hypothesis Hspace : decimal_not_space uni_decimal.
Hypothesis Hupper : decimal_not_upper uni_decimal.

(** X10.  A header without a title gives no record: where ['('] comes
    right after the space behind the code text and no other ['('] is
    behind it, the header is passed over. *)
Theorem X10_no_title_skipped :
  ∀ header words digits suffix z,
    code_text words digits suffix →
    header_norm header =
      (join [ch_space] words ++ ch_space :: digits ++ suffix)
      ++ ch_space :: ch_lparen :: z →
    ch_lparen ∉ z →
    parse header = Ok None ∧
    ∀ courses, scan_header courses header = Ok courses.
Proof.
  intros header words digits suffix z Hcode Es Hz.
  destruct (scan_header_cases uni_decimal nfkc header)
    as [(_ & Hp & Hs)|(m & words' & digits' & suffix' & ttl & gap & cr & after
                       & _ & _ & Es' & Hcode' & Httl & _)]; [done|].
  exfalso. rewrite Es in Es'.
  destruct (code_unique uni_decimal Hspace Hupper _ _ _ _ _ _ _ _ Hcode Hcode' Es')
    as (_ & _ & _ & E).
  destruct Httl as (Hne & _). destruct ttl as [|c ttl]; [done|].
  simpl in E. injection E as <- ->. apply Hz. elem_tac.
Qed.
End Records.

Lemma X9_witness_prerequisite_line :
  parse decimal_sample nfkc_spaces (lit "prerequisite: ANTH 100 (5)") = Ok None ∧
  ∀ courses,
    scan_header decimal_sample nfkc_spaces courses
      (lit "prerequisite: ANTH 100 (5)") = Ok courses.
Proof.
  apply (X9_no_capital_or_no_number_skipped decimal_sample nfkc_spaces).
  left. intros c Hc. vm_compute in Hc. by injection Hc as <-.
Defined.

Lemma X10_witness_code_and_credits_only :
  parse decimal_sample nfkc_spaces (lit "B E 200 (5) NW") = Ok None ∧
  ∀ courses,
    scan_header decimal_sample nfkc_spaces courses (lit "B E 200 (5) NW")
    = Ok courses.
Proof.
  apply (X10_no_title_skipped decimal_sample nfkc_spaces
           decimal_sample_not_space decimal_sample_not_upper
           (lit "B E 200 (5) NW") [lit "B"; lit "E"] (lit "200") [] (lit "5) NW")).
  - split_and!; try done; repeat constructor; done.
  - by vm_compute.
  - by apply absent_check.
Defined.

(** ** The paragraphs of a department page *)

Lemma lstrip_spaces_app w s :
  Forall (λ c, is_space c = true) w → lstrip (w ++ s) = lstrip s.
Proof. induction 1 as [|c w Hc _ IH]; simpl; [done|]. by rewrite Hc. Qed.

Lemma lstrip_app_keep s t : lstrip s ≠ [] → lstrip (s ++ t) = lstrip s ++ t.
Proof.
  induction s as [|c s IH]; simpl; [done|].
  destruct (is_space c); [done|]. done.
Qed.

Lemma rstrip_app_spaces s w :
  Forall (λ c, is_space c = true) w → rstrip (s ++ w) = rstrip s.
Proof.
  intros Hw. unfold rstrip. rewrite reverse_app, lstrip_spaces_app; [done|].
  by apply Forall_reverse.
Qed.

Lemma rstrip_app_keep s t : rstrip t ≠ [] → rstrip (s ++ t) = s ++ rstrip t.
Proof.
  unfold rstrip. intros Ht. rewrite reverse_app, lstrip_app_keep.
  - by rewrite reverse_app, reverse_involutive.
  - intros E. by rewrite E in Ht.
Qed.

Lemma rstrip_spaces w : Forall (λ c, is_space c = true) w → rstrip w = [].
Proof.
  intros Hw. rewrite <- (app_nil_l w), rstrip_app_spaces by done. done.
Qed.

Lemma rstrip_nil_spaces s : rstrip s = [] → Forall (λ c, is_space c = true) s.
Proof. destruct (rstrip_prefix s) as (w & E & Hw). intros E'. by rewrite E, E'. Qed.

Lemma strip_spaces w : Forall (λ c, is_space c = true) w → strip w = [].
Proof.
  intros Hw. unfold strip. rewrite <- (app_nil_r w), lstrip_spaces_app by done.
  done.
Qed.

Lemma strip_nonempty s c :
  head s = Some c → is_space c = false → strip s ≠ [].
Proof.
  intros Hs Hc E. unfold strip in E. rewrite lstrip_id in E.
  - apply rstrip_nil_spaces in E. destruct s as [|x s]; [done|].
    injection Hs as ->. apply Forall_cons in E as [E _]. congruence.
  - intros x Hx. congruence.
Qed.

Lemma strip_strip s : strip (strip s) = strip s.
Proof. apply strip_id; intros x; [apply strip_head|apply strip_last]. Qed.

Lemma split_lines_line l : ch_newline ∉ l → split_lines l = [l].
Proof.
  induction l as [|c l IH]; [done|]. intros Hc. simpl.
  destruct (N.eqb_spec c ch_newline) as [->|_]; [exfalso; apply Hc; elem_tac|].
  rewrite IH; [done|]. intros ?. apply Hc. elem_tac.
Qed.

Lemma split_lines_first l r :
  ch_newline ∉ l → split_lines (l ++ ch_newline :: r) = l :: split_lines r.
Proof.
  induction l as [|c l IH]; [done|]. intros Hc. simpl.
  destruct (N.eqb_spec c ch_newline) as [->|_]; [exfalso; apply Hc; elem_tac|].
  rewrite IH; [done|]. intros ?. apply Hc. elem_tac.
Qed.

Lemma rstrip_sublist_newline s : ch_newline ∉ s → ch_newline ∉ rstrip s.
Proof.
  destruct (rstrip_prefix s) as (w & E & _). intros H Hin. apply H.
  rewrite E. elem_tac.
Qed.

Section Paragraphs.
Variable uni_decimal : char → bool.
Variable nfkc : str → str.

Local Abbreviation scan_header := (scan_header uni_decimal nfkc).
Local Abbreviation scan_para := (scan_para uni_decimal nfkc).
Local Abbreviation scan_paras := (scan_paras uni_decimal nfkc).

Lemma scan_para_adds p :
  ∃ new, (∀ courses, scan_para courses p = Ok (courses ++ new)) ∧
         length new ≤ (if has_b p then 1 else 0).
Proof.
  unfold scan_para. destruct (has_b p).
  - destruct (strip <$> _) as [|header lines].
    + exists []. split; [|simpl; lia]. intros courses. by rewrite app_nil_r.
    + destruct (scan_header_cases uni_decimal nfkc header)
        as [(_ & _ & Hs)|(m & ? & ? & ? & ? & ? & ? & ? & _ & _ & _ & _ & _ & _ & _
                          & _ & Hs)].
      * exists []. split; [|simpl; lia]. intros courses. by rewrite app_nil_r.
      * eexists [_]. split; [|simpl; lia]. intros courses. apply Hs.
  - exists []. split; [|done]. intros courses. by rewrite app_nil_r.
Qed.

Lemma scan_paras_adds ps :
  ∃ new, (∀ courses, scan_paras courses ps = Ok (courses ++ new)) ∧
         length new ≤ length (filter (λ p, has_b p = true) ps).
Proof.
  induction ps as [|p ps (new' & IH & Hlen')].
  - exists []. split; [|done]. intros courses. simpl. by rewrite app_nil_r.
  - destruct (scan_para_adds p) as (new & Hp & Hlen).
    exists (new ++ new'). split.
    + intros courses. simpl. by rewrite Hp, IH, app_assoc.
    + rewrite length_app. destruct (has_b p) eqn:Hb.
      * rewrite filter_cons_True by done. simpl. lia.
      * rewrite filter_cons_False by congruence. lia.
Qed.

Lemma scan_paras_app courses ps1 ps2 :
  scan_paras courses (ps1 ++ ps2) =
  match scan_paras courses ps1 with
  | Ok courses' => scan_paras courses' ps2
  | Raise e => Raise e
  end.
Proof.
  revert courses. induction ps1 as [|p ps1 IH]; intros courses; simpl; [done|].
  destruct (scan_para courses p); [apply IH|done].
Qed.

(** X11.  Of a paragraph with a bold element only the first line that
    is not blank is read: where the text is white space, then a line
    that begins with another character, then nothing or a line break
    and any text, the paragraph does what that line, stripped, does as
    a header. *)
Theorem X11_first_line_is_the_header :
  ∀ p w line rest courses,
    has_b p = true →
    text p = w ++ line ++ rest →
    Forall (λ c, is_space c = true) w →
    (∃ c, head line = Some c ∧ is_space c = false) →
    ch_newline ∉ line →
    rest = [] ∨ head rest = Some ch_newline →
    scan_para courses p = scan_header courses (strip line).
Proof.
  intros p w line rest courses Hb Et Hw (c & Hc & Hsp) Hnl Hrest.
  assert (Ef : strip (w ++ line ++ rest) = rstrip (line ++ rest)).
  { unfold strip. rewrite lstrip_spaces_app by done.
    rewrite lstrip_app_keep by (rewrite lstrip_id; [by destruct line|congruence]).
    by rewrite lstrip_id by congruence. }
  unfold scan_para. rewrite Hb, Et, Ef.
  assert (Hline : strip line ≠ []) by by eapply strip_nonempty.
  assert (Es : strip line = rstrip line).
  { unfold strip. by rewrite lstrip_id by congruence. }
  destruct (decide (rstrip rest = [])) as [Hr|Hr].
  - apply rstrip_nil_spaces in Hr. rewrite rstrip_app_spaces by done.
    rewrite split_lines_line by by apply rstrip_sublist_newline.
    rewrite <- Es, filter_cons_True by by rewrite strip_strip.
    simpl. by rewrite strip_strip.
  - rewrite rstrip_app_keep by done.
    destruct Hrest as [->|Hrest]; [done|].
    destruct (rstrip rest) as [|x r] eqn:Er; [done|].
    assert (x = ch_newline) as ->.
    { pose proof (rstrip_head rest x) as H. rewrite Er in H.
      specialize (H eq_refl). congruence. }
    rewrite split_lines_first by done.
    rewrite filter_cons_True by done. done.
Qed.

(** X12.  A paragraph without a bold element, or with nothing but
    white space as text, leaves the list of courses as it is. *)
Theorem X12_plain_or_blank_paragraph_skipped :
  ∀ p,
    has_b p = false ∨ Forall (λ c, is_space c = true) (text p) →
    ∀ courses, scan_para courses p = Ok courses.
Proof.
  intros p [Hb|Hw] courses; unfold scan_para.
  - by rewrite Hb.
  - destruct (has_b p); [|done]. by rewrite strip_spaces by done.
Qed.

(** X13.  The records of a page are added behind the courses already
    there, those of a first part of the page before those of the rest,
    and a page gives at most one record for each paragraph with a bold
    element. *)
Theorem X13_scan_paras_appends :
  ∀ ps more,
    ∃ new new',
      scan_paras [] ps = Ok new ∧ scan_paras [] more = Ok new' ∧
      (∀ courses, scan_paras courses (ps ++ more) = Ok (courses ++ new ++ new')) ∧
      length new ≤ length (filter (λ p, has_b p = true) ps).
Proof.
  intros ps more.
  destruct (scan_paras_adds ps) as (new & Hnew & Hlen).
  destruct (scan_paras_adds more) as (new' & Hnew' & _).
  exists new, new'. split_and!; [apply Hnew|apply Hnew'| |done].
  intros courses. by rewrite scan_paras_app, Hnew, Hnew', app_assoc.
Qed.
End Paragraphs.

Lemma X11_witness_entry_with_description :
  scan_para decimal_sample nfkc_spaces []
    (Para true (lit " " ++ [ch_newline]
                ++ lit "ANTH 100 Introduction to Anthropology (5) SSc  "
                ++ [ch_newline] ++ lit "Introduction to the subfields.")) =
  scan_header decimal_sample nfkc_spaces []
    (strip (lit "ANTH 100 Introduction to Anthropology (5) SSc  ")).
Proof.
  apply (X11_first_line_is_the_header decimal_sample nfkc_spaces
           _ (lit " " ++ [ch_newline])
           (lit "ANTH 100 Introduction to Anthropology (5) SSc  ")
           ([ch_newline] ++ lit "Introduction to the subfields.")).
  - done.
  - done.
  - by repeat constructor.
  - by exists 65%N.
  - by apply absent_check.
  - by right.
Defined.

Lemma X12_witness_blank_bold_paragraph :
  scan_para decimal_sample nfkc_spaces
    [{| code := lit "ANTH100"; title := Some (lit "Intro");
        credits := Some (lit "5") |}]
    (Para true ([ch_newline; ch_nbsp] ++ lit "  ")) =
  Ok [{| code := lit "ANTH100"; title := Some (lit "Intro");
         credits := Some (lit "5") |}].
Proof.
  apply (X12_plain_or_blank_paragraph_skipped decimal_sample nfkc_spaces).
  right. by repeat constructor.
Defined.

(** ** The log of a run *)

Lemma got_urls_app l1 l2 : got_urls (l1 ++ l2) = got_urls l1 ++ got_urls l2.
Proof. apply omap_app. Qed.

Lemma batches_app l1 l2 : batches (l1 ++ l2) = batches l1 ++ batches l2.
Proof. apply omap_app. Qed.

Lemma naps_app l1 l2 : naps (l1 ++ l2) = naps l1 + naps l2.
Proof. unfold naps. by rewrite omap_app, length_app. Qed.

Section RecordShape.
Variable uni_decimal : char → bool.
Variable nfkc : str → str.

Lemma parse_fields_ok header r :
  parse uni_decimal nfkc header = Ok (Some r) → fields_ok r.
Proof.
  intros Hr.
  destruct (scan_header_cases uni_decimal nfkc header)
    as [(_ & Hnone & _)|(m & words & digits & suffix & ttl & gap & cr & after
                         & _ & _ & _ & _ & (Hne & Hhead & Hlast & _) & _ & Hcr
                         & Hp & _)];
    [congruence|].
  simpl in Hp. rewrite Hp in Hr. injection Hr as <-.
  exists ttl, cr. done.
Qed.

Lemma parse_code_ok header r :
  decimal_not_space uni_decimal →
  parse uni_decimal nfkc header = Ok (Some r) → code_ok uni_decimal (code r).
Proof.
  intros Hspace Hr.
  destruct (scan_header_cases uni_decimal nfkc header)
    as [(_ & Hnone & _)|(m & words & digits & suffix & ttl & gap & cr & after
                         & _ & _ & _ & Hcode & _ & _ & _ & Hp & _)];
    [congruence|].
  simpl in Hp. rewrite Hp in Hr. injection Hr as <-. simpl.
  rewrite (code_clean_concat uni_decimal) by done.
  destruct Hcode as (Hne & Hwords & Hd & Udigits & Usuffix & Hlen).
  assert (Uletters : Forall (λ x, is_upper_AZ x = true) (concat words)).
  { apply Forall_concat. eapply Forall_impl; [done|]. by intros w [_ ?]. }
  exists (concat words), digits, suffix. split_and!; try done.
  - destruct Hwords as [|w words [Hw _] _]; [done|]. by destruct w.
  - rewrite !Forall_app. split_and!.
    + eapply Forall_impl; [done|]. apply upper_not_space.
    + eapply Forall_impl; [done|]. apply Hspace.
    + eapply Forall_impl; [done|]. apply upper_not_space.
Qed.
End RecordShape.

Section Run.
Variable uni_decimal : char → bool.
Variable nfkc : str → str.
Variable fetch : list event → str → outcome html.
Variable execute : list event → str → list course → outcome response.
Variable create_client : str → str → outcome unit.

Local Abbreviation parse := (parse uni_decimal nfkc).
Local Abbreviation scan_paras := (scan_paras uni_decimal nfkc).
Local Abbreviation scrape_department :=
  (scrape_department uni_decimal nfkc fetch execute).
Local Abbreviation scrape_departments :=
  (scrape_departments uni_decimal nfkc fetch execute).
Local Abbreviation main := (main uni_decimal nfkc fetch execute create_client).

Section Invariant.
Variable P : course → Prop.
Hypothesis HP : ∀ header r, parse header = Ok (Some r) → P r.

(** What one department adds to the log, whether it ends normally or
    not. *)
Lemma scrape_department_summary dep log :
  ∃ more,
    snd (scrape_department dep log) = log ++ more ∧
    got_urls more = [dep.2] ∧ naps more ≤ 1 ∧
    length (batches more) ≤ 1 ∧
    Forall (λ b, b.1 = lit "uw_courses" ∧ b.2 ≠ [] ∧ Forall P b.2)
           (batches more) ∧
    (fst (scrape_department dep log) = Ok () → naps more = 1).
Proof.
  destruct dep as [[dep_abbrev dep_name] dep_url].
  pose proof (scrape_department_cases uni_decimal nfkc fetch execute
                dep_abbrev dep_name dep_url log) as H.
  destruct (fetch _ dep_url) as [dep_page|e].
  - destruct H as (courses & Hc & ->).
    destruct (scan_paras_inv uni_decimal nfkc P HP (paras dep_page)
                [] ltac:(constructor)) as (courses' & Hc' & Hall).
    assert (courses' = courses) as -> by congruence.
    destruct courses as [|r courses].
    { eexists. split; [done|]. cbn -[lit].
      split_and!; [done|lia|lia|constructor|done]. }
    destruct (execute _ _ (r :: courses)) as [response|e];
      (eexists; split; [done|]; cbn -[lit];
       split_and!; [done|lia|lia| |done];
       constructor; [by split_and!|constructor]).
  - rewrite H. eexists. split; [done|]. cbn -[lit].
    split_and!; [done|lia|lia|constructor|done].
Qed.

Lemma scrape_departments_summary deps log :
  ∃ more,
    snd (scrape_departments deps log) = log ++ more ∧
    got_urls more `prefix_of` ((λ d : department, d.2) <$> deps) ∧
    naps more ≤ length (got_urls more) ∧
    length (batches more) ≤ length (got_urls more) ∧
    Forall (λ b, b.1 = lit "uw_courses" ∧ b.2 ≠ [] ∧ Forall P b.2)
           (batches more) ∧
    (fst (scrape_departments deps log) = Ok () →
     got_urls more = (λ d : department, d.2) <$> deps ∧
     naps more = length deps).
Proof.
  revert log. induction deps as [|dep deps IH]; intros log.
  - exists []. rewrite app_nil_r. by split_and!.
  - rewrite scrape_departments_cons.
    destruct (scrape_department_summary dep log)
      as (more & Hsnd & Hg & Hn & Hl & Hb & Hok).
    destruct (scrape_department dep log) as [[[]|e] log'];
      simpl in Hsnd; subst log'.
    + destruct (IH (log ++ more)) as (more' & -> & Hg' & Hn' & Hl' & Hb' & Hok').
      exists (more ++ more'). rewrite app_assoc.
      rewrite got_urls_app, naps_app, batches_app, !length_app, Hg.
      rewrite (Hok eq_refl).
      split_and!; [done|by apply prefix_cons|simpl; lia|simpl; lia
                  |by apply Forall_app|].
      intros [-> ->]%Hok'. done.
    + exists more. rewrite Hg.
      split_and!; [done|apply prefix_cons, prefix_nil|done|done|done|done].
Qed.
End Invariant.

(** With every call to the outside returning, the loop ends normally. *)
Lemma scrape_departments_returns deps log :
  (∀ log url, ∃ page, fetch log url = Ok page) →
  (∀ log table rows, ∃ response, execute log table rows = Ok response) →
  fst (scrape_departments deps log) = Ok ().
Proof.
  intros Hfetch Hexecute. revert log.
  induction deps as [|[[dep_abbrev dep_name] dep_url] deps IH]; intros log;
    [done|].
  rewrite scrape_departments_cons.
  pose proof (scrape_department_cases uni_decimal nfkc fetch execute
                dep_abbrev dep_name dep_url log) as H.
  destruct (Hfetch (log ++ [Printed (lit "Scraping " ++ dep_name ++ lit "...")])
              dep_url) as [dep_page Hpage].
  rewrite Hpage in H. destruct H as (courses & _ & ->).
  destruct courses as [|r courses]; [apply IH|].
  destruct (Hexecute (log ++ [Printed (lit "Scraping " ++ dep_name ++ lit "...");
                              Got dep_url])
              (lit "uw_courses") (r :: courses)) as [response ->].
  apply IH.
Qed.

(** The addresses the script asks for. *)
Lemma discover_urls_in_catalog links :
  Forall (λ url, ∃ name, url = base_url ++ name ∧ ch_slash ∉ name)
         ((λ d : department, d.2) <$> discover links).
Proof.
  apply Forall_fmap, Forall_forall. intros d.
  intros (a & t & _ & _ & _ & _ & Hslash & ->)%elem_of_discover. simpl.
  by exists (t ++ lit ".html").
Qed.


(** X15.  Every batch the loop hands to the store, in a run that ends
    normally or not, goes to the table [uw_courses], is not empty, and
    holds only records with a code of letters A-Z, decimal digits and
    at most one more letter, a title that is not empty and has no
    white space at either end, and credits without a [')']. *)
Theorem X15_only_well_formed_batches_stored :
  decimal_not_space uni_decimal →
  ∀ deps log,
    ∃ more,
      snd (scrape_departments deps log) = log ++ more ∧
      Forall (λ b, b.1 = lit "uw_courses" ∧ b.2 ≠ [] ∧
                   Forall (λ r, code_ok uni_decimal (code r) ∧ fields_ok r) b.2)
             (batches more).
Proof.
  intros Hspace deps log.
  destruct (scrape_departments_summary
              (λ r, code_ok uni_decimal (code r) ∧ fields_ok r)
              (λ header r Hr, conj (parse_code_ok _ _ header r Hspace Hr)
                                   (parse_fields_ok _ _ header r Hr))
              deps log)
    as (more & E & _ & _ & _ & Hb & _).
  by exists more.
Qed.

(** X16.  Whatever the outside answers, every address the script asks
    for is that of the catalog followed by a name without a slash.
    With its configuration in place, the client created and every
    call to the outside returning, the script ends normally: it asks
    for the index page first and prints the number of departments
    found, then asks for the page of each department in the order of
    the index, and prints its closing line last. *)
Theorem X16_run_stays_in_catalog :
  ∀ environ log,
    (∃ more,
       snd (main environ log) = log ++ more ∧
       Forall (λ url, ∃ name, url = base_url ++ name ∧ ch_slash ∉ name)
              (got_urls more)) ∧
    (∀ config,
       startup environ = Ok config →
       create_client config.1 config.2 = Ok () →
       (∀ log url, ∃ page, fetch log url = Ok page) →
       (∀ log table rows, ∃ response, execute log table rows = Ok response) →
       ∃ main_page more,
         fetch log base_url = Ok main_page ∧
         main environ log =
           (Ok (),
            log ++ Got base_url
              :: Printed (lit "Found "
                          ++ str_of_nat (length (discover (anchors main_page)))
                          ++ lit " departments.")
              :: more ++ [Printed (lit "Scraping complete.")]) ∧
         got_urls more =
           (λ d : department, d.2) <$> discover (anchors main_page)).
Proof.
  intros environ log.
  assert (Hbase : ∃ name, base_url = base_url ++ name ∧ ch_slash ∉ name).
  { exists []. rewrite app_nil_r. split; [done|]. apply not_elem_of_nil. }
  split.
  - unfold main, mbind, prog_bind, lift, get, emit.
    destruct (startup environ) as [config|e];
      [|exists []; rewrite app_nil_r; by split; [|constructor]].
    destruct (create_client config.1 config.2) as [[]|e];
      [|exists []; rewrite app_nil_r; by split; [|constructor]].
    destruct (fetch log base_url) as [main_page|e];
      [|exists [Got base_url]; split; [done|by repeat constructor]].
    match goal with
    | |- context [scrape_departments ?d ?l] =>
        destruct (scrape_departments_summary (λ _, True) ltac:(done) d l)
          as (more & Hsnd & [rest Hg] & _);
        destruct (scrape_departments d l) as [[[]|e] log']
    end; simpl in Hsnd; subst log'.
    + eexists (_ :: _ :: more ++ [_]). split; [by rewrite <- !app_assoc|].
      cbn -[lit]. rewrite got_urls_app, app_nil_r. constructor; [done|].
      pose proof (discover_urls_in_catalog (anchors main_page)) as Hall.
      rewrite Hg, Forall_app in Hall. apply Hall.
    + eexists (_ :: _ :: more). split; [by rewrite <- !app_assoc|].
      cbn -[lit]. constructor; [done|].
      pose proof (discover_urls_in_catalog (anchors main_page)) as Hall.
      rewrite Hg, Forall_app in Hall. apply Hall.
  - intros config Hs Hc Hfetch Hexecute.
    destruct (Hfetch log base_url) as [main_page Hpage].
    unfold main, mbind, prog_bind, lift, get, emit. rewrite Hs, Hc, Hpage.
    match goal with
    | |- context [scrape_departments ?d ?l] =>
        pose proof (scrape_departments_returns d l Hfetch Hexecute) as Hok;
        destruct (scrape_departments_summary (λ _, True) ltac:(done) d l)
          as (more & Hsnd & _ & _ & _ & _ & Hall);
        destruct (scrape_departments d l) as [[[]|e] log']
    end; simpl in Hsnd, Hok; subst log'; [|done].
    exists main_page, more.
    split_and!; [done|by rewrite <- !app_assoc|by apply Hall].
Qed.

(** X17.  Where the page of a department is fetched and gives no
    record, the department is paused for with nothing stored and
    nothing more printed.  Where it gives records and the insert
    returns a response without an [error], or with one that is empty,
    the number of the records stored is printed with the name of the
    department. *)
Theorem X17_insert_without_error_reported :
  ∀ dep_abbrev dep_name dep_url log dep_page,
    fetch (log ++ [Printed (lit "Scraping " ++ dep_name ++ lit "...")]) dep_url
      = Ok dep_page →
    ∃ courses,
      scan_paras [] (paras dep_page) = Ok courses ∧
      (courses = [] →
       scrape_department (dep_abbrev, dep_name, dep_url) log =
         (Ok (),
          log ++ [Printed (lit "Scraping " ++ dep_name ++ lit "...");
                  Got dep_url; Slept])) ∧
      (∀ response,
         courses ≠ [] →
         execute (log ++ [Printed (lit "Scraping " ++ dep_name ++ lit "...");
                          Got dep_url])
                 (lit "uw_courses") courses = Ok response →
         from_option truth false (error response) = false →
         scrape_department (dep_abbrev, dep_name, dep_url) log =
           (Ok (),
            log ++ [Printed (lit "Scraping " ++ dep_name ++ lit "...");
                    Got dep_url;
                    Inserted (lit "uw_courses") courses;
                    Printed (lit "Inserted " ++ str_of_nat (length courses)
                             ++ lit " courses for " ++ dep_name ++ lit ".");
                    Slept])).
Proof.
  intros dep_abbrev dep_name dep_url log dep_page Hpage.
  pose proof (scrape_department_cases uni_decimal nfkc fetch execute
                dep_abbrev dep_name dep_url log) as Hd.
  rewrite Hpage in Hd. destruct Hd as (courses & Hc & ->).
  exists courses. split_and!; [done|by intros ->|].
  intros response Hne Hex Herr. destruct courses as [|r courses]; [done|].
  rewrite Hex.
  assert (reports_error response = false) as ->; [|done].
  unfold reports_error. by destruct (error response).
Qed.
End Run.

Lemma X15_witness_index_run :
  ∃ more,
    snd (scrape_departments decimal_sample nfkc_spaces fetch_by_url
           execute_raising (discover links_sample) []) = [] ++ more ∧
    Forall (λ b, b.1 = lit "uw_courses" ∧ b.2 ≠ [] ∧
                 Forall (λ r, code_ok decimal_sample (code r) ∧ fields_ok r) b.2)
           (batches more).
Proof.
  exact (X15_only_well_formed_batches_stored decimal_sample nfkc_spaces
           fetch_by_url execute_raising decimal_sample_not_space
           (discover links_sample) []).
Defined.

Lemma X16_witness_full_run :
  ∃ main_page more,
    fetch_by_url [] base_url = Ok main_page ∧
    main decimal_sample nfkc_spaces fetch_by_url execute_quiet create_client_ok
      env_full [] =
      (Ok (),
       [] ++ Got base_url
         :: Printed (lit "Found "
                     ++ str_of_nat (length (discover (anchors main_page)))
                     ++ lit " departments.")
         :: more ++ [Printed (lit "Scraping complete.")]) ∧
    got_urls more = (λ d : department, d.2) <$> discover (anchors main_page).
Proof.
  apply (proj2 (X16_run_stays_in_catalog decimal_sample nfkc_spaces fetch_by_url
                  execute_quiet create_client_ok env_full [])
           (lit "https://example.supabase.co", lit "service-role-key")).
  - by vm_compute.
  - done.
  - intros log url. unfold fetch_by_url. repeat case_decide; by eexists.
  - intros log table rows. by eexists.
Defined.

Lemma X17_witness_quiet_store :
  scrape_department decimal_sample nfkc_spaces fetch_by_url execute_quiet
    dep_anth [] =
  (Ok (),
   [Printed (lit "Scraping Anthropology (ANTH)...");
    Got (lit "https://www.washington.edu/students/crscat/anth.html");
    Inserted (lit "uw_courses")
      [{| code := lit "ANTH100";
          title := Some (lit "Introduction to Anthropology");
          credits := Some (lit "5") |}];
    Printed (lit "Inserted 1 courses for Anthropology (ANTH).");
    Slept]).
Proof.
  destruct (X17_insert_without_error_reported decimal_sample nfkc_spaces
              fetch_by_url execute_quiet
              (lit "anth") (lit "Anthropology (ANTH)")
              (base_url ++ lit "anth.html") [] page_anth eq_refl)
    as (courses & Hc & _ & Hok).
  vm_compute in Hc. injection Hc as <-.
  exact (Hok (Response (Some (PyVal false []))) ltac:(done) eq_refl eq_refl).
Defined.
